(** * resy-bot: the booking conversation and its message gateway

    A shallow embedding of [src/resy-bot.ts]: the string primitives the
    handler relies on, the upstream parsers ([parseVenues], [parseSlots]),
    the Resy and LLM calls, the step-based conversation handler
    ([handleMessage]) and the iMessage watcher callback ([onMessage]).

    Modelling conventions.
    - A JavaScript string is a Rocq [string]; its characters are 8-bit, so
      [toLowerCase], [trim] and the [\s] class act on the ASCII range and
      lengths count bytes. On ASCII text ([isAscii]) these are JavaScript's
      own; beyond it JavaScript counts UTF-16 units and folds more letters,
      so a statement that depends on letter case, white space or a length
      is made for ASCII text.
    - Numbers the code only passes along (coordinates, ratings) are
      rationals; integers it computes with are in [Z].
    - The process-wide [state] variable is threaded explicitly; the handler
      runs in a small monad that carries the session, the thrown error (if
      any) and the log of upstream calls. An assignment to [state] that
      precedes a throw stays in effect, as in the source.
    - Upstream services (the LLM, the Resy endpoints, the transport and the
      clock) are a [World] of oracles, one per turn; the handler's calls to
      them are logged with what the request carries (the search query and
      location joined, the coordinates after their default).
    - The formatters of list and summary replies and [new Date(string)] are
      a [Presentation] parameter. [fmtVenueList] and [fmtConfirm] may throw
      ([repeat], [toFixed]); they run after the session is assigned.
      Dereferencing a session field that is [undefined] throws a TypeError.
    - The watcher callback is split at its first [await]: [arrive] is the
      synchronous part up to [processing = true], [turn] the
      [try]/[catch]/[finally] that follows. *)

From Stdlib Require Import ZArith Qcanon String Ascii List Bool Lia DecimalString.
From stdpp Require Import base tactics numbers option list gmap strings sets.

Import ListNotations.
Local Open Scope string_scope.
Local Open Scope Z_scope.

(** ** JavaScript string primitives *)

Module JS.

Definition nl : string := String (ascii_of_nat 10) EmptyString.
Definition dq : string := String (ascii_of_nat 34) EmptyString.

(** [String.prototype.toLowerCase], on A-Z. *)
Definition lowerChar (c : ascii) : ascii :=
  let n := nat_of_ascii c in
  if ((65 <=? n) && (n <=? 90))%nat then ascii_of_nat (n + 32) else c.

Fixpoint toLowerCase (s : string) : string :=
  match s with
  | EmptyString => EmptyString
  | String c r => String (lowerChar c) (toLowerCase r)
  end.

(** White space as [trim] and the regular expression class [\s] see it:
    TAB, LF, VT, FF, CR and SPACE. *)
Definition isSpace (c : ascii) : bool :=
  let n := nat_of_ascii c in
  (((9 <=? n) && (n <=? 13)) || (n =? 32))%nat.

Fixpoint trimStart (s : string) : string :=
  match s with
  | EmptyString => EmptyString
  | String c r => if isSpace c then trimStart r else s
  end.

Definition isEmpty (s : string) : bool :=
  match s with EmptyString => true | _ => false end.

Fixpoint trimEnd (s : string) : string :=
  match s with
  | EmptyString => EmptyString
  | String c r =>
      let r' := trimEnd r in
      if isSpace c && isEmpty r' then EmptyString else String c r'
  end.

Definition trim (s : string) : string := trimEnd (trimStart s).

(** [s.slice(0, n)] *)
Fixpoint slice0 (n : nat) (s : string) : string :=
  match n, s with
  | S n', String c r => String c (slice0 n' r)
  | _, _ => EmptyString
  end.

(** [s.includes(w)] *)
Fixpoint includes (s w : string) : bool :=
  if String.prefix w s then true
  else match s with
       | EmptyString => false
       | String _ r => includes r w
       end.

(** [s.replace(/[,.\-]/g, " ")] *)
Definition isPunct (c : ascii) : bool :=
  let n := nat_of_ascii c in ((n =? 44) || (n =? 46) || (n =? 45))%nat.

Fixpoint replacePunct (s : string) : string :=
  match s with
  | EmptyString => EmptyString
  | String c r => String (if isPunct c then " "%char else c) (replacePunct r)
  end.

(** [s.split(/\s+/)]: the pieces between maximal runs of white space; a
    run at either end leaves an empty piece there, and the empty string
    splits into one empty piece. [inRun] says the previous character was
    white space, [acc] is the current piece. *)
Fixpoint splitWsFrom (inRun : bool) (acc : string) (s : string) : list string :=
  match s with
  | EmptyString => [acc]
  | String c r =>
      if isSpace c
      then (if inRun then splitWsFrom true EmptyString r
            else acc :: splitWsFrom true EmptyString r)
      else splitWsFrom false (acc +:+ String c EmptyString) r
  end.

Definition splitWs (s : string) : list string := splitWsFrom false EmptyString s.

(** [s.split(" ")]: split at every single space. *)
Fixpoint splitSpaceFrom (acc : string) (s : string) : list string :=
  match s with
  | EmptyString => [acc]
  | String c r =>
      if Ascii.eqb c " "%char then acc :: splitSpaceFrom EmptyString r
      else splitSpaceFrom (acc +:+ String c EmptyString) r
  end.

Definition splitSpace (s : string) : list string := splitSpaceFrom EmptyString s.

(** [parseInt(s, 10)]: leading white space, an optional sign, then the
    longest run of decimal digits; [None] is NaN. The value is kept exact
    (a double rounds above 2^53, which no comparison with a list length
    can observe). *)
Definition digitVal (c : ascii) : option Z :=
  let n := nat_of_ascii c in
  if ((48 <=? n) && (n <=? 57))%nat then Some (Z.of_nat (n - 48)) else None.

Fixpoint digits (acc : Z) (s : string) : Z :=
  match s with
  | EmptyString => acc
  | String c r =>
      match digitVal c with
      | Some d => digits (10 * acc + d) r
      | None => acc
      end
  end.

Definition unsignedInt (s : string) : option Z :=
  match s with
  | EmptyString => None
  | String c _ =>
      match digitVal c with
      | Some _ => Some (digits 0 s)
      | None => None
      end
  end.

Definition parseInt (s : string) : option Z :=
  match trimStart s with
  | String "-" r => Z.opp <$> unsignedInt r
  | String "+" r => unsignedInt r
  | r => unsignedInt r
  end.

(** [String(n)] for an integer. *)
Definition showZ (n : Z) : string := NilZero.string_of_int (Z.to_int n).

End JS.

(** ** Records of the conversation *)

Definition number := Qc.

Record Venue := {
  venue_id : Z;
  venue_name : string;
  neighborhood : string;
  city : string;
  cuisine : list string;
  rating : number;
  reviews : Z;
  price : Z
}.

Record Slot := {
  slot_start : string;
  slot_end : string;
  slot_type : string;
  slot_token : string
}.

Record SearchParams := {
  query : string;
  location : string;
  lat : number;
  lng : number;
  day : string;
  party_size : Z
}.

Inductive Step := idle | venue_list | slot_list | confirm.

(** A [Date] object: a time value in milliseconds, or Invalid Date. *)
Inductive JsDate := DateAt (ms : Z) | InvalidDate.

Record State := {
  step : Step;
  search : option SearchParams;
  venues : option (list Venue);
  pickedVenue : option Venue;
  slots : option (list Slot);
  pickedSlot : option Slot;
  bookToken : option string;
  bookExpires : option JsDate
}.

(** [{ step: "idle" }] *)
Definition idleState : State :=
  {| step := idle; search := None; venues := None; pickedVenue := None;
     slots := None; pickedSlot := None; bookToken := None; bookExpires := None |}.

#[global] Instance Step_eq_dec : EqDecision Step.
Proof. solve_decision. Defined.

(** ** Upstream payloads, with every field the parsers guard by [?.] or [??]
    optional *)

Record RawHit := {
  hit_id_resy : option Z;
  hit_name : option string;
  hit_neighborhood : option string;
  hit_locality : option string;
  hit_cuisine : option (list string);
  hit_rating_average : option number;
  hit_rating_count : option Z;
  hit_price_range_id : option Z
}.

(** [data?.search?.hits] *)
Definition SearchResponse := option (list RawHit).

Record RawSlot := {
  date_start : option string;
  date_end : option string;
  config_type : option string;
  config_token : option string
}.

Record RawAvailVenue := {
  avail_venue_id_resy : option Z;
  avail_slots : option (list RawSlot)
}.

(** [data?.results?.venues] *)
Definition AvailabilityResponse := option (list RawAvailVenue).

Record RawDetails := {
  book_token_value : option string;
  book_token_date_expires : option string;
  payment : string;
  cancellation : string
}.

Record RawBooking := { resy_token : option string }.

(** ** Parsers *)

Definition toVenue (h : RawHit) : Venue :=
  {| venue_id := default 0 (hit_id_resy h);
     venue_name := default "Unknown" (hit_name h);
     neighborhood := default "" (hit_neighborhood h);
     city := default "" (hit_locality h);
     cuisine := default [] (hit_cuisine h);
     rating := default 0%Qc (hit_rating_average h);
     reviews := default 0 (hit_rating_count h);
     price := default 0 (hit_price_range_id h) |}.

Definition locWords (location : string) : list string :=
  JS.splitWs (JS.trim (JS.replacePunct (JS.toLowerCase location))).

Definition vCity (v : Venue) : string :=
  JS.toLowerCase (city v +:+ " " +:+ neighborhood v).

(** The predicate of [all.filter(...)]: some word of the location longer
    than two characters occurs in the venue's lowercased city and
    neighbourhood. *)
Definition isLocal (words : list string) (v : Venue) : bool :=
  existsb (fun w => (2 <? String.length w)%nat && JS.includes (vCity v) w) words.

(** The post-filter of [parseVenues]: filter by location, fall back to the
    unfiltered list when nothing is left, keep the first five. *)
Definition postFilter (location : string) (all : list Venue) : list Venue :=
  let local := List.filter (isLocal (locWords location)) all in
  take 5 (if (0 <? length local)%nat then local else all).

Definition parseVenues (data : SearchResponse) (location : string) : list Venue :=
  let all := map toVenue (default [] data) in
  postFilter location all.

(** [d?.split(" ")[1]?.slice(0, 5) ?? "??:??"] *)
Definition clock (d : option string) : string :=
  default "??:??" (d ≫= fun t => JS.slice0 5 <$> (JS.splitSpace t !! 1%nat)).

Definition toSlot (s : RawSlot) : Slot :=
  {| slot_start := clock (date_start s);
     slot_end := clock (date_end s);
     slot_type := default "Standard" (config_type s);
     slot_token := default "" (config_token s) |}.

Definition parseSlots (data : AvailabilityResponse) (venueId : Z) : list Slot :=
  let venues := default [] data in
  let found := List.find (fun v => bool_decide (avail_venue_id_resy v = Some venueId)) venues in
  match (match found with Some v => Some v | None => head venues end) with
  | None => []
  | Some v => map toSlot (default [] (avail_slots v))
  end.

(** ** Upstream world and the handler's monad *)

Inductive Err := Error (message : string).

Definition message (e : Err) : string := let 'Error m := e in m.

(** A [fetch]: it rejects, or it resolves to a response with a status, a
    body text and (when it parses) the body as JSON. *)
Inductive Fetched (A : Type) :=
| NetworkError (e : Err)
| Response (status : Z) (body : string) (json : option A).
Arguments NetworkError {A} e.
Arguments Response {A} status body json.

(** The chat completion: it rejects, it has no function tool call, or it
    has one whose arguments parse (or not) to search parameters. *)
Inductive Completion :=
| CompletionError (e : Err)
| NoToolCall
| ToolCall (args : option SearchParams).

Record World := {
  now : Z;
  openai_chat : string -> Completion;
  resy_search : string -> number -> number -> Fetched SearchResponse;
  resy_find : Z -> string -> Z -> number -> number -> Fetched AvailabilityResponse;
  resy_details : string -> string -> Z -> Fetched RawDetails;
  resy_book : string -> Fetched RawBooking;
  sdk_send : string -> string -> option Err
}.

Inductive Call :=
| CallExtract (message : string)
| CallSearch (fullQuery : string) (latitude longitude : number)
| CallAvailability (venueId : Z) (day : string) (partySize : Z) (lat long : number)
| CallDetails (configToken day : string) (partySize : Z)
| CallBook (bookToken : string).

Definition isBook (c : Call) : bool :=
  match c with CallBook _ => true | _ => false end.

(** How a computation ends: it returns, it throws, or its promise never
    settles. *)
Inductive Signal (A : Type) :=
| Returned (a : A)
| Thrown (e : Err)
| Pending.
Arguments Returned {A} a.
Arguments Thrown {A} e.
Arguments Pending {A}.

Record Outcome (A : Type) := {
  signal : Signal A;
  final : State;
  calls : list Call
}.
Arguments signal {A} o.
Arguments final {A} o.
Arguments calls {A} o.

Definition M (A : Type) : Type := State -> Outcome A.

Definition ret {A} (a : A) : M A :=
  fun st => {| signal := Returned a; final := st; calls := [] |}.

Definition throw {A} (e : Err) : M A :=
  fun st => {| signal := Thrown e; final := st; calls := [] |}.

Definition pending {A} : M A :=
  fun st => {| signal := Pending; final := st; calls := [] |}.

Definition bind {A B} (m : M A) (k : A -> M B) : M B :=
  fun st =>
    match m st with
    | {| signal := Returned a; final := st1; calls := c1 |} =>
        match k a st1 with
        | {| signal := r; final := st2; calls := c2 |} =>
            {| signal := r; final := st2; calls := c1 ++ c2 |}
        end
    | {| signal := Thrown e; final := st1; calls := c1 |} =>
        {| signal := Thrown e; final := st1; calls := c1 |}
    | {| signal := Pending; final := st1; calls := c1 |} =>
        {| signal := Pending; final := st1; calls := c1 |}
    end.

(** [try { m } catch (err) { h err }] *)
Definition tryCatch {A} (m : M A) (h : Err -> M A) : M A :=
  fun st =>
    match m st with
    | {| signal := Thrown e; final := st1; calls := c1 |} =>
        match h e st1 with
        | {| signal := r; final := st2; calls := c2 |} =>
            {| signal := r; final := st2; calls := c1 ++ c2 |}
        end
    | o => o
    end.

Definition get : M State :=
  fun st => {| signal := Returned st; final := st; calls := [] |}.

Definition put (st' : State) : M unit :=
  fun _ => {| signal := Returned tt; final := st'; calls := [] |}.

Definition call (c : Call) : M unit :=
  fun st => {| signal := Returned tt; final := st; calls := [c] |}.

Declare Scope handler_scope.
Delimit Scope handler_scope with handler.
Notation "'do' x <- m ; k" := (bind m (fun x => k))
  (at level 10, x name, m at level 100, k at level 200,
   format "'do'  x  <-  m ; '//' k") : handler_scope.
Notation "m ;; k" := (bind m (fun _ => k))
  (at level 100, k at level 200, right associativity) : handler_scope.
Local Open Scope handler_scope.

(** Reading a property of [undefined] throws a TypeError. *)
Definition typeError : Err := Error "TypeError: Cannot read properties of undefined".
Definition syntaxError : Err := Error "SyntaxError: Unexpected token in JSON".

Definition need {A} (o : option A) : M A :=
  match o with
  | Some a => ret a
  | None => throw typeError
  end.

(** [function reset() { state = { step: "idle" }; }] *)
Definition reset : M unit := put idleState.

(** ** Resy API and the LLM call *)

Definition ok (status : Z) : bool := (200 <=? status) && (status <=? 299).

Definition jsonOf {A} (json : option A) : M A :=
  match json with
  | Some d => ret d
  | None => throw syntaxError
  end.

(** [DEFAULT_GEO] *)
Record Geo := { latitude : number; longitude : number }.

Definition DEFAULT_GEO : Geo :=
  {| latitude := Q2Qc (QArith_base.Qmake 407128 10000);
     longitude := Q2Qc (QArith_base.Qmake (-74006) 1000) |}.

(** [x || d] on numbers: zero is falsy. *)
Definition orElse (x d : number) : number :=
  if QArith_base.Qeq_bool x (QArith_base.Qmake 0 1) then d else x.

(** The request of [apiSearch] carries the query and the location joined
    by a space and the coordinates, each replaced by the default when
    falsy; [apiAvailability] sends the coordinates the same way. *)
Definition apiSearch (w : World) (query location : string) (lat lng : number)
  : M SearchResponse :=
  let geo := {| latitude := orElse lat (latitude DEFAULT_GEO);
                longitude := orElse lng (longitude DEFAULT_GEO) |} in
  let fullQuery := query +:+ " " +:+ location in
  call (CallSearch fullQuery (latitude geo) (longitude geo)) ;;
  match resy_search w fullQuery (latitude geo) (longitude geo) with
  | NetworkError e => throw e
  | Response status _ json =>
      if negb (ok status)
      then throw (Error ("Resy search failed (" +:+ JS.showZ status +:+ ")"))
      else jsonOf json
  end.

Definition apiAvailability (w : World) (venueId : Z) (day : string) (partySize : Z)
  (lat lng : number) : M AvailabilityResponse :=
  let lat' := orElse lat (latitude DEFAULT_GEO) in
  let long := orElse lng (longitude DEFAULT_GEO) in
  call (CallAvailability venueId day partySize lat' long) ;;
  match resy_find w venueId day partySize lat' long with
  | NetworkError e => throw e
  | Response status _ json =>
      if negb (ok status)
      then throw (Error ("Resy availability failed (" +:+ JS.showZ status +:+ ")"))
      else jsonOf json
  end.

Definition apiDetails (w : World) (configToken day : string) (partySize : Z)
  : M RawDetails :=
  call (CallDetails configToken day partySize) ;;
  match resy_details w configToken day partySize with
  | NetworkError e => throw e
  | Response status _ json =>
      if negb (ok status)
      then throw (Error ("Resy details failed (" +:+ JS.showZ status +:+ ")"))
      else jsonOf json
  end.

Definition apiBook (w : World) (bookToken : string) : M RawBooking :=
  call (CallBook bookToken) ;;
  match resy_book w bookToken with
  | NetworkError e => throw e
  | Response status t json =>
      if status =? 402 then throw (Error "PAYMENT_REQUIRED")
      else if negb (ok status)
      then throw (Error ("Booking failed (" +:+ JS.showZ status +:+ "): " +:+ t))
      else jsonOf json
  end.

Definition msgNotUnderstood : string :=
  "Couldn't understand that — try something like: " +:+ JS.dq
  +:+ "Italian in NYC tomorrow for 4" +:+ JS.dq.

Definition extractSearch (w : World) (message : string) : M SearchParams :=
  call (CallExtract message) ;;
  match openai_chat w message with
  | CompletionError e => throw e
  | NoToolCall => throw (Error msgNotUnderstood)
  | ToolCall None => throw syntaxError
  | ToolCall (Some args) => ret args
  end.

(** ** Replies *)

(** What a formatter call comes to: its text, or the error it throws. *)
Inductive Rendered := Text (t : string) | Raised (e : Err).

Definition rendered (r : Rendered) : M string :=
  match r with
  | Text t => ret t
  | Raised e => throw e
  end.

Definition outcomeOf (r : Rendered) : Signal string :=
  match r with
  | Text t => Returned t
  | Raised e => Thrown e
  end.

(** The formatters ([fmtVenueList], [fmtSlotList], [fmtConfirm],
    [fmtSuccess]) and [new Date(string)]. [fmtVenueList] and [fmtConfirm]
    can throw on data the parsers let through (the RangeError of
    ["$".repeat(v.price)] on a huge price, the TypeError of [toFixed] on a
    rating or a deposit total that is not a number); [fmtSlotList] and
    [fmtSuccess] only interpolate and split strings. *)
Record Presentation := {
  fmtVenueList : list Venue -> SearchParams -> Rendered;
  fmtSlotList : Venue -> list Slot -> string -> Z -> string;
  fmtConfirm : Venue -> Slot -> string -> Z -> string -> string -> Rendered;
  fmtSuccess : Venue -> Slot -> string -> Z -> RawBooking -> string;
  newDate : string -> JsDate
}.

Definition msgFresh : string :=
  "🔄 Starting fresh! What are you looking for? (e.g. " +:+ JS.dq
  +:+ "Italian in NYC tomorrow" +:+ JS.dq +:+ ")".

Definition msgNoResults (s : SearchParams) : string :=
  "No results for " +:+ JS.dq +:+ query s +:+ JS.dq +:+ " in " +:+ location s
  +:+ ". Try a different search.".

Definition msgSearchAgain : string := "🔄 What would you like to search for?".

Definition msgPick (maxSlots : nat) : string :=
  "Pick a number from 1–" +:+ JS.showZ (Z.of_nat maxSlots) +:+ ", say " +:+ JS.dq
  +:+ "back" +:+ JS.dq +:+ " to see restaurants, or type a new search.".

Definition msgTaken : string :=
  "😕 That slot just got taken! Pick another number, or say " +:+ JS.dq
  +:+ "back" +:+ JS.dq +:+ ".".

Definition msgDeclined (slotList : string) : string :=
  "No problem!" +:+ JS.nl +:+ JS.nl +:+ slotList.

Definition msgExpired (slotList : string) : string :=
  "⏰ That hold expired. Pick a time again:" +:+ JS.nl +:+ JS.nl +:+ slotList.

Definition msgPayment (name : string) : string :=
  "💳 " +:+ name +:+ " requires a credit card or deposit to complete the booking."
  +:+ JS.nl +:+ JS.nl
  +:+ "👉 Head to resy.com or the Resy app to finish booking this one."
  +:+ JS.nl +:+ JS.nl
  +:+ "Want to pick a different restaurant or time instead?".

Definition msgConfirmPrompt : string :=
  "Reply " +:+ JS.dq +:+ "yes" +:+ JS.dq +:+ " to book, " +:+ JS.dq +:+ "no" +:+ JS.dq
  +:+ " to go back, or " +:+ JS.dq +:+ "reset" +:+ JS.dq +:+ " to start over.".

(** ** The message handler *)

(** [isNaN(num) || num < 1 || num > len] fails: the zero-based index
    [num - 1] of the pick. *)
Definition validPick (num : option Z) (len : nat) : option nat :=
  match num with
  | None => None
  | Some k => if (k <? 1) || (Z.of_nat len <? k) then None else Some (Z.to_nat (k - 1))
  end.

(** [state.bookExpires && new Date() > state.bookExpires] *)
Definition holdExpired (w : World) (st : State) : bool :=
  match bookExpires st with
  | Some (DateAt t) => t <? now w
  | Some InvalidDate => false
  | None => false
  end.

(** [details.book_token.date_expires ? new Date(...) : undefined] *)
Definition expiresOf (newDate : string -> JsDate) (d : RawDetails) : option JsDate :=
  match book_token_date_expires d with
  | Some t => if JS.isEmpty t then None else Some (newDate t)
  | None => None
  end.

Definition isResetCommand (lower : string) : bool :=
  bool_decide (lower = "reset") || bool_decide (lower = "start over").

Definition isDecline (lower : string) : bool :=
  bool_decide (lower = "no") || bool_decide (lower = "back").

Definition isConfirm (lower : string) : bool :=
  bool_decide (lower = "yes") || bool_decide (lower = "confirm")
  || bool_decide (lower = "book").

Section Conversation.

Context (P : Presentation).

(** Step idle: extract, search, list the venues. *)
Definition stepIdle (w : World) (text : string) : M string :=
  do search <- extractSearch w text;
  do data <- apiSearch w (query search) (location search) (lat search) (lng search);
  let venues := parseVenues data (location search) in
  if (length venues =? 0)%nat then ret (msgNoResults search)
  else
    put {| step := venue_list; search := Some search; venues := Some venues;
           pickedVenue := None; slots := None; pickedSlot := None;
           bookToken := None; bookExpires := None |} ;;
    rendered (fmtVenueList P venues search).

(** Step venue_list: pick a venue, or start over with [again], the
    recursive [handleMessage(text)]. *)
Definition stepVenueList (w : World) (lower : string) (again : M string) : M string :=
  if bool_decide (lower = "back") then reset ;; ret msgSearchAgain
  else
    do st <- get;
    match validPick (JS.parseInt lower) (length (default [] (venues st))) with
    | None => reset ;; again
    | Some i =>
        do venue <- need (venues st ≫= fun vs => vs !! i);
        do s <- need (search st);
        do data <- apiAvailability w (venue_id venue) (day s) (party_size s) (lat s) (lng s);
        let slots := parseSlots data (venue_id venue) in
        do st1 <- get;
        put {| step := slot_list; search := search st1; venues := venues st1;
               pickedVenue := Some venue; slots := Some slots;
               pickedSlot := pickedSlot st1; bookToken := bookToken st1;
               bookExpires := bookExpires st1 |} ;;
        ret (fmtSlotList P venue slots (day s) (party_size s))
    end.

(** Step slot_list: pick a time and take the hold. *)
Definition stepSlotList (w : World) (lower : string) : M string :=
  do st <- get;
  if bool_decide (lower = "back") then
    put {| step := venue_list; search := search st; venues := venues st;
           pickedVenue := None; slots := None; pickedSlot := pickedSlot st;
           bookToken := bookToken st; bookExpires := bookExpires st |} ;;
    do vs <- need (venues st);
    do s <- need (search st);
    rendered (fmtVenueList P vs s)
  else
    let maxSlots := Nat.min (length (default [] (slots st))) 10 in
    match validPick (JS.parseInt lower) maxSlots with
    | None => ret (msgPick maxSlots)
    | Some i =>
        do slot <- need (slots st ≫= fun sl => sl !! i);
        do venue <- need (pickedVenue st);
        do s <- need (search st);
        do details <- apiDetails w (slot_token slot) (day s) (party_size s);
        match book_token_value details with
        | None => ret msgTaken
        | Some token =>
            if JS.isEmpty token then ret msgTaken
            else
              do st1 <- get;
              put {| step := confirm; search := search st1; venues := venues st1;
                     pickedVenue := pickedVenue st1; slots := slots st1;
                     pickedSlot := Some slot; bookToken := Some token;
                     bookExpires := expiresOf (newDate P) details |} ;;
              rendered (fmtConfirm P venue slot (day s) (party_size s)
                          (payment details) (cancellation details))
        end
    end.

(** [fmtSlotList(state.pickedVenue!, state.slots!, state.search!.day,
    state.search!.party_size)] on the current session. *)
Definition currentSlotList : M string :=
  do st <- get;
  do s <- need (search st);
  do venue <- need (pickedVenue st);
  do sl <- need (slots st);
  ret (fmtSlotList P venue sl (day s) (party_size s)).

(** Step confirm: book or decline. *)
Definition stepConfirm (w : World) (lower : string) : M string :=
  do st <- get;
  if isDecline lower then
    put {| step := slot_list; search := search st; venues := venues st;
           pickedVenue := pickedVenue st; slots := slots st;
           pickedSlot := None; bookToken := None; bookExpires := None |} ;;
    do list <- currentSlotList;
    ret (msgDeclined list)
  else if isConfirm lower then
    if holdExpired w st then
      put {| step := slot_list; search := search st; venues := venues st;
             pickedVenue := pickedVenue st; slots := slots st;
             pickedSlot := None; bookToken := None;
             bookExpires := bookExpires st |} ;;
      do list <- currentSlotList;
      ret (msgExpired list)
    else
      do venue <- need (pickedVenue st);
      do slot <- need (pickedSlot st);
      tryCatch
        (do result <- apiBook w (default "undefined" (bookToken st));
         do s <- need (search st);
         let msg := fmtSuccess P venue slot (day s) (party_size s) result in
         reset ;;
         ret msg)
        (fun err =>
           if bool_decide (message err = "PAYMENT_REQUIRED") then
             do st1 <- get;
             do v <- need (pickedVenue st1);
             put {| step := slot_list; search := search st1; venues := venues st1;
                    pickedVenue := pickedVenue st1; slots := slots st1;
                    pickedSlot := None; bookToken := None;
                    bookExpires := bookExpires st1 |} ;;
             ret (msgPayment (venue_name v))
           else throw err)
  else ret msgConfirmPrompt.

(** [handleMessage], with [fuel] bounding the depth of its recursion. The
    final fallback of the source ([reset(); return handleMessage(text)]
    after the four step tests) has no case here: [Step] has no fifth
    value. *)
Fixpoint handleMessageF (fuel : nat) (w : World) (text : string) : M string :=
  match fuel with
  | O => pending
  | S fuel' =>
      let lower := JS.trim (JS.toLowerCase text) in
      if isResetCommand lower then reset ;; ret msgFresh
      else
        do st <- get;
        match step st with
        | idle => stepIdle w text
        | venue_list => stepVenueList w lower (handleMessageF fuel' w text)
        | slot_list => stepSlotList w lower
        | confirm => stepConfirm w lower
        end
  end.

(** The recursion is entered from venue_list only and lands in idle, so
    depth two is all it takes (see [handleMessageF_fuel]). *)
Definition handleMessage (w : World) (text : string) : M string :=
  handleMessageF 2 w text.

(** Sessions the handler can produce from the initial one. *)
Inductive reachable : State -> Prop :=
| reachable_init : reachable idleState
| reachable_turn w text st :
    reachable st -> reachable (final (handleMessage w text st)).

(** The same with the turns kept, latest first: the upstream of each turn
    and the text received in it. *)
Inductive conversation : list (World * string) -> State -> Prop :=
| conversation_start : conversation [] idleState
| conversation_turn w text turns st :
    conversation turns st ->
    conversation ((w, text) :: turns) (final (handleMessage w text st)).

End Conversation.

(** ** The iMessage watcher *)

Record Message := {
  sender : string;
  chatId : string;
  text : option string;
  isFromMe : bool;
  isReaction : bool;
  guid : string
}.

(** The watcher's variables: the session, [botSentTexts] (a [Set], kept in
    insertion order because the prefix scan iterates it), [seenGuids] and
    the [processing] flag. *)
Record Gateway := {
  state : State;
  botSentTexts : list string;
  seenGuids : gset string;
  processing : bool
}.

Definition startGateway : Gateway :=
  {| state := idleState; botSentTexts := []; seenGuids := ∅; processing := false |}.

(** [Set.prototype.add] and [Set.prototype.delete] *)
Definition setAdd (x : string) (l : list string) : list string :=
  if bool_decide (x ∈ l) then l else l ++ [x].

Definition setDelete (x : string) (l : list string) : list string :=
  List.filter (fun y => negb (String.eqb x y)) l.

Definition truthy (s : string) : bool := negb (JS.isEmpty s).

(** What the callback concludes before any [await]. *)
Inductive Verdict :=
| Ignored
| Duplicate
| Echo (sent : string)
| Busy
| Accepted (text : string).

Inductive Event :=
| Handle (text : string)
| Upstream (c : Call)
| Send (to body : string).

Definition errReply (e : Err) : string :=
  "❌ Something went wrong: " +:+ message e +:+ JS.nl +:+ JS.nl
  +:+ "Say " +:+ JS.dq +:+ "reset" +:+ JS.dq +:+ " to start over.".

(** [msg.chatId || msg.sender] *)
Definition recipient (msg : Message) : string :=
  if truthy (chatId msg) then chatId msg else sender msg.

(** The first pending text with the same first 200 characters. *)
Definition prefixMatch (t : string) (sent : list string) : option string :=
  List.find (fun s => String.eqb (JS.slice0 200 s) (JS.slice0 200 t)) sent.

Section Watcher.

Context (P : Presentation) (MY_ID : string).

(** The scope filter: the trimmed text of a message that passes it. *)
Definition inScope (msg : Message) : option string :=
  match text msg with
  | None => None
  | Some raw =>
      if negb (isFromMe msg) || JS.isEmpty raw || isReaction msg then None
      else if truthy MY_ID && truthy (chatId msg)
              && negb (JS.includes (chatId msg) MY_ID) then None
      else
        let t := JS.trim raw in
        if JS.isEmpty t then None else Some t
  end.

(** [onMessage] up to and including [processing = true]. *)
Definition arrive (g : Gateway) (msg : Message) : Gateway * Verdict :=
  match inScope msg with
  | None => (g, Ignored)
  | Some t =>
      if bool_decide (guid msg ∈ seenGuids g) then (g, Duplicate)
      else
        let seen := {[guid msg]} ∪ seenGuids g in
        if bool_decide (t ∈ botSentTexts g) then
          ({| state := state g; botSentTexts := setDelete t (botSentTexts g);
              seenGuids := seen; processing := processing g |}, Echo t)
        else
          match prefixMatch t (botSentTexts g) with
          | Some sent =>
              ({| state := state g; botSentTexts := setDelete sent (botSentTexts g);
                  seenGuids := seen; processing := processing g |}, Echo sent)
          | None =>
              if processing g then
                ({| state := state g; botSentTexts := botSentTexts g;
                    seenGuids := seen; processing := processing g |}, Busy)
              else
                ({| state := state g; botSentTexts := botSentTexts g;
                    seenGuids := seen; processing := true |}, Accepted t)
          end
  end.

(** The [try]/[catch]/[finally] of [onMessage]: run the handler, record
    and send the reply, or the error reply when the handler or the send
    throws; then lower the flag. A handler that never settles leaves the
    flag up. *)
Definition turn (w : World) (g : Gateway) (msg : Message) (t : string)
  : Gateway * list Event :=
  let o := handleMessage P w t (state g) in
  let log := Handle t :: map Upstream (calls o) in
  let caught (sent : list string) (log : list Event) (e : Err) :=
    ({| state := final o; botSentTexts := setAdd (errReply e) sent;
        seenGuids := seenGuids g; processing := false |},
     (log ++ [Send (recipient msg) (errReply e)])%list) in
  match signal o with
  | Returned reply =>
      let sent := setAdd reply (botSentTexts g) in
      let log' := (log ++ [Send (recipient msg) reply])%list in
      match sdk_send w (recipient msg) reply with
      | None =>
          ({| state := final o; botSentTexts := sent;
              seenGuids := seenGuids g; processing := false |}, log')
      | Some e => caught sent log' e
      end
  | Thrown e => caught (botSentTexts g) log e
  | Pending =>
      ({| state := final o; botSentTexts := botSentTexts g;
          seenGuids := seenGuids g; processing := processing g |}, log)
  end.

(** One run of the callback with nothing interleaved. *)
Definition onMessage (w : World) (g : Gateway) (msg : Message)
  : Gateway * list Event :=
  let '(g1, v) := arrive g msg in
  match v with
  | Accepted t => turn w g1 msg t
  | _ => (g1, [])
  end.

(** What can happen to the watcher's variables: a message arrives, or the
    turn in flight completes. *)
Inductive gwStep : Gateway -> Gateway -> Prop :=
| step_arrive g msg : gwStep g (arrive g msg).1
| step_turn w g msg t : gwStep g (turn w g msg t).1.

End Watcher.

(** ** Sample data *)

Module Sample.

Definition plain : Presentation :=
  {| fmtVenueList := fun vs s => Text ("venues for " +:+ query s);
     fmtSlotList := fun v sl d p => "slots at " +:+ venue_name v;
     fmtConfirm := fun v s d p pay c =>
       Text ("confirm " +:+ venue_name v +:+ " " +:+ slot_start s);
     fmtSuccess := fun v s d p r => "booked " +:+ venue_name v;
     newDate := fun t => match JS.unsignedInt t with Some ms => DateAt ms | None => InvalidDate end |}.

Definition hit (name locality : string) : RawHit :=
  {| hit_id_resy := Some 7; hit_name := Some name; hit_neighborhood := None;
     hit_locality := Some locality; hit_cuisine := None;
     hit_rating_average := None; hit_rating_count := None;
     hit_price_range_id := None |}.

Definition asking (q : string) : SearchParams :=
  {| query := q; location := "New York"; lat := 0%Qc; lng := 0%Qc;
     day := "2024-06-02"; party_size := 2 |}.

Definition tacos : SearchParams := asking "tacos".

Definition rawSlot (t : string) : RawSlot :=
  {| date_start := Some ("2024-06-02 " +:+ t); date_end := Some ("2024-06-02 " +:+ t);
     config_type := None; config_token := Some ("cfg-" +:+ t) |}.

Definition hours : list string :=
  ["17:00:00"; "17:30:00"; "18:00:00"; "18:30:00"; "19:00:00"; "19:30:00";
   "20:00:00"; "20:30:00"; "21:00:00"; "21:30:00"; "22:00:00"].

Definition availability : AvailabilityResponse :=
  Some [{| avail_venue_id_resy := Some 7; avail_slots := Some (map rawSlot hours) |}].

(** An upstream that answers every request: the message is the query, three
    venues, eleven slots, a hold expiring at time 1000 and a commit
    answered with [bookStatus]. *)
Definition world (clock bookStatus : Z) : World :=
  {| now := clock;
     openai_chat := fun m => ToolCall (Some (asking m));
     resy_search := fun _ _ _ =>
       Response 200 ""
         (Some (Some [hit "Oxomoco" "New York"; hit "Los Tacos" "New York";
                      hit "Taqueria" "Chicago"]));
     resy_find := fun _ _ _ _ _ => Response 200 "" (Some availability);
     resy_details := fun _ _ _ =>
       Response 200 ""
         (Some {| book_token_value := Some "hold-1";
                  book_token_date_expires := Some "1000";
                  payment := ""; cancellation := "" |});
     resy_book := fun _ => Response bookStatus "" (Some {| resy_token := Some "r-1" |});
     sdk_send := fun _ _ => None |}.

(** The same upstream with the slot taken before the hold, and with a
    search that finds nothing. *)
Definition soldOut : World :=
  {| now := 0;
     openai_chat := openai_chat (world 0 200);
     resy_search := resy_search (world 0 200);
     resy_find := resy_find (world 0 200);
     resy_details := fun _ _ _ =>
       Response 200 ""
         (Some {| book_token_value := None; book_token_date_expires := None;
                  payment := ""; cancellation := "" |});
     resy_book := resy_book (world 0 200);
     sdk_send := sdk_send (world 0 200) |}.

Definition nothingFound : World :=
  {| now := 0;
     openai_chat := openai_chat (world 0 200);
     resy_search := fun _ _ _ => Response 200 "" (Some (Some []));
     resy_find := resy_find (world 0 200);
     resy_details := resy_details (world 0 200);
     resy_book := resy_book (world 0 200);
     sdk_send := sdk_send (world 0 200) |}.

(** A search response with hits in and out of town. *)
Definition mixed : SearchResponse :=
  Some [hit "Oxomoco" "New York"; hit "Taqueria" "Chicago"; hit "Los Tacos" "NEW YORK"].




(** The session after each turn of: a search, venue 1, slot 1. *)
Definition listed : State := final (handleMessage plain (world 0 200) "tacos" idleState).
Definition picked : State := final (handleMessage plain (world 0 200) "1" listed).
Definition held : State := final (handleMessage plain (world 0 200) "1" picked).

Definition inbound (id body : string) : Message :=
  {| sender := "me"; chatId := "chat"; text := Some body; isFromMe := true;
     isReaction := false; guid := id |}.

(** A conversation that reaches slot_list a second time: a search, venue
    1, slot 1, then "no" at the confirmation. *)
Definition dialogue : list (World * string) :=
  [(world 0 200, "no"); (world 0 200, "1"); (world 0 200, "1"); (world 0 200, "tacos")].

Definition reopened : State := final (handleMessage plain (world 0 200) "no" held).

(** The watcher after the first search (its reply not yet echoed), after
    the echo of that reply, and after the same search typed again. *)
Definition echoed : string := "venues for tacos".




(** The watcher with the first search in flight. *)
Definition inFlight : Gateway := (arrive "" startGateway (inbound "g1" "tacos")).1.






End Sample.

(** ** Specification predicates *)

(** [w] occurs in [s]. *)
Definition occursIn (w s : string) : Prop :=
  exists pre post, s = pre +:+ w +:+ post.


(** The location match, in the words of the specification: the characters
    that end a word, a word, the same text case aside, and the match.

    The characters that end a word of a location. The specification
    speaks of the words of the location string and no further; this reads
    it with white space and the punctuation of an address (comma, period,
    hyphen) between the words. *)
Definition separates (c : ascii) : Prop :=
  c ∈ [" "; ","; "."; "-"; "009"; "010"; "011"; "012"; "013"]%char.

(** [c] is a character of [s]. *)
Definition inText (c : ascii) (s : string) : Prop :=
  exists a b, s = a +:+ String c b.

(** [w] is a word of [s]: a non-empty run of characters of [s], none of
    them a separator, with a separator or an end of [s] on either side. *)
Definition wordOf (s w : string) : Prop :=
  w <> ""
  /\ (forall c, inText c w -> ~ separates c)
  /\ exists pre post,
       s = pre +:+ w +:+ post
       /\ (pre = "" \/ exists p c, pre = p +:+ String c "" /\ separates c)
       /\ (post = "" \/ exists c r, post = String c r /\ separates c).

(** The same letter, case aside: equal characters, or a capital A-Z and
    its small letter. *)
Definition sameLetter (c d : ascii) : Prop :=
  let a := nat_of_ascii c in
  let b := nat_of_ascii d in
  (a = b \/ (65 <= a <= 90 /\ b = a + 32) \/ (65 <= b <= 90 /\ a = b + 32))%nat.

Fixpoint sameText (a b : string) : Prop :=
  match a, b with
  | EmptyString, EmptyString => True
  | String c a', String d b' => sameLetter c d /\ sameText a' b'
  | _, _ => False
  end.

(** Some significant word of the location (a word of more than two
    characters) occurs, case aside, in the venue's city and neighbourhood. *)
Definition matchesLocation (location : string) (v : Venue) : Prop :=
  exists w u,
    wordOf location w /\ (2 < String.length w)%nat
    /\ occursIn u (city v +:+ " " +:+ neighborhood v)
    /\ sameText w u.

(** A parsed venue written back as an upstream hit. *)
Definition asHit (v : Venue) : RawHit :=
  {| hit_id_resy := Some (venue_id v); hit_name := Some (venue_name v);
     hit_neighborhood := Some (neighborhood v); hit_locality := Some (city v);
     hit_cuisine := Some (cuisine v); hit_rating_average := Some (rating v);
     hit_rating_count := Some (reviews v); hit_price_range_id := Some (price v) |}.

(** The text is an integer numeral: an optional sign, then decimal digits
    and nothing else. This is what the transition table of the
    specification calls an integer input; the handler itself reads numbers
    with [JS.parseInt]. *)
Fixpoint allDigits (s : string) : bool :=
  match s with
  | EmptyString => true
  | String c r => match JS.digitVal c with Some _ => allDigits r | None => false end
  end.

Definition numeral (s : string) : option Z :=
  if negb (JS.isEmpty s) && allDigits s then Some (JS.digits 0 s) else None.

Definition integerText (s : string) : option Z :=
  match s with
  | String "-" r => Z.opp <$> numeral r
  | String "+" r => numeral r
  | _ => numeral s
  end.

(** The fields each step relies on are there, and the fields of later steps
    are not. [bookExpires] is left out: two of the ways out of confirm keep
    it. *)
Definition wellFormed (st : State) : Prop :=
  match step st with
  | idle => st = idleState
  | venue_list =>
      is_Some (search st) /\ is_Some (venues st) /\ pickedVenue st = None
      /\ slots st = None /\ pickedSlot st = None /\ bookToken st = None
  | slot_list =>
      is_Some (search st) /\ is_Some (venues st) /\ is_Some (pickedVenue st)
      /\ is_Some (slots st) /\ pickedSlot st = None /\ bookToken st = None
  | confirm =>
      is_Some (search st) /\ is_Some (venues st) /\ is_Some (pickedVenue st)
      /\ is_Some (slots st) /\ is_Some (pickedSlot st) /\ is_Some (bookToken st)
  end.

(** The slots of the session are the ones parsed from what the upstream
    [w] answers, with a 2xx status and a JSON body, to the availability
    request for the picked venue on the day and for the party size of the
    session's search. *)
Definition fetchedSlots (w : World) (st : State) : Prop :=
  exists pv s status body data,
    pickedVenue st = Some pv /\ search st = Some s
    /\ resy_find w (venue_id pv) (day s) (party_size s)
         (orElse (lat s) (latitude DEFAULT_GEO)) (orElse (lng s) (longitude DEFAULT_GEO))
       = Response status body (Some data)
    /\ ok status = true
    /\ slots st = Some (parseSlots data (venue_id pv)).

(** The words that confirm a booking. *)
Definition confirms (lower : string) : Prop :=
  lower = "yes" \/ lower = "confirm" \/ lower = "book".

(** An outcome with one more call at the head of its log. *)
Definition logged {A} (c : Call) (o : Outcome A) : Outcome A :=
  {| signal := signal o; final := final o; calls := c :: calls o |}.

(** The outcome settled and left a well-formed session. *)
Definition good {A} (o : Outcome A) : Prop :=
  signal o <> Pending /\ wellFormed (final o).

(** The computation settles from every session: it returns or throws. *)
Definition settles {A} (m : M A) : Prop := forall st, signal (m st) <> Pending.

(** ** Further predicates *)

(** The step transitions of the handler: from a step (row) to a step. *)
Definition allowed (from to : Step) : bool :=
  match from, to with
  | idle, (idle | venue_list) => true
  | venue_list, (idle | venue_list | slot_list) => true
  | slot_list, _ => true
  | confirm, (idle | slot_list | confirm) => true
  | _, _ => false
  end.

(** What the fields of a session hold beyond being present: between one
    and five venues, a picked venue out of them, a picked slot among the
    first ten stored, a booking token that is not empty. *)
Definition bounded (st : State) : Prop :=
  (forall vs, venues st = Some vs -> vs <> [] /\ (length vs <= 5)%nat)
  /\ (forall vs pv, venues st = Some vs -> pickedVenue st = Some pv -> pv ∈ vs)
  /\ (forall sl ps, slots st = Some sl -> pickedSlot st = Some ps ->
        exists i, (i < 10)%nat /\ sl !! i = Some ps)
  /\ bookToken st <> Some "".

(** The string has no space character. *)
Fixpoint spaceless (s : string) : bool :=
  match s with
  | EmptyString => true
  | String c r => negb (Ascii.eqb c " "%char) && spaceless r
  end.

(** The upstream calls a turn may make from each step. *)
Definition expected (from : Step) (cs : list Call) : bool :=
  match from, cs with
  | _, [] => true
  | (idle | venue_list), ([CallExtract _] | [CallExtract _; CallSearch _ _ _]) => true
  | venue_list, [CallAvailability _ _ _ _ _] => true
  | slot_list, [CallDetails _ _ _] => true
  | confirm, [CallBook _] => true
  | _, _ => false
  end.

(** ** Auxiliary functions of the proofs *)

(** The separators as the code tests them. *)
Definition sepb (c : ascii) : bool := JS.isSpace c || JS.isPunct c.

(** The pieces of [s] between separators, the first one continuing [acc]. *)
Fixpoint runsFrom (acc s : string) : list string :=
  match s with
  | EmptyString => [acc]
  | String c r =>
      if sepb c then acc :: runsFrom EmptyString r
      else runsFrom (acc +:+ String c EmptyString) r
  end.

Fixpoint noSepb (s : string) : bool :=
  match s with
  | EmptyString => true
  | String c r => negb (sepb c) && noSepb r
  end.

(** The boundary of a piece on its right: the end of the text or a
    separator. *)
Definition closed (post : string) : Prop :=
  post = "" \/ exists c r, post = String c r /\ sepb c = true.

(** * Properties *)

Example lower_trim : JS.trim (JS.toLowerCase "  Start OVER ") = "start over".
Proof. reflexivity. Qed.

Example split_location :
  locWords "Williamsburg, Brooklyn" = ["williamsburg"; "brooklyn"].
Proof. reflexivity. Qed.

Example split_empty : JS.splitWs "" = [""].
Proof. reflexivity. Qed.

Example split_edges : JS.splitWs " a  b " = [""; "a"; "b"; ""].
Proof. reflexivity. Qed.

Example parseInt_prefix : JS.parseInt "2 tacos" = Some 2.
Proof. reflexivity. Qed.

Example parseInt_nan : JS.parseInt "tacos for 2" = None.
Proof. reflexivity. Qed.

Example parseInt_neg : JS.parseInt "-3" = Some (-3).
Proof. reflexivity. Qed.

Example slot_clock : clock (Some "2024-06-02 19:30:00") = "19:30".
Proof. reflexivity. Qed.

Example slot_clock_missing : clock (Some "19:30") = "??:??".
Proof. reflexivity. Qed.

Example show_status : JS.showZ 402 = "402".
Proof. reflexivity. Qed.

(** ** Strings *)

Lemma append_cons a s t : String a s +:+ t = String a (s +:+ t).
Proof. reflexivity. Qed.

Lemma append_empty s : s +:+ "" = s.
Proof. induction s as [|a s IH]; [done|]. by rewrite append_cons, IH. Qed.

Lemma append_snoc acc c r : (acc +:+ String c "") +:+ r = acc +:+ String c r.
Proof. induction acc as [|a acc IH]; [done|]. by rewrite !append_cons, IH. Qed.


Lemma prefix_spec w s : String.prefix w s = true <-> exists post, s = w +:+ post.
Proof.
  revert s. induction w as [|a w IH]; intros s.
  - destruct s; simpl; split; eauto.
  - destruct s as [|b s]; simpl.
    + split; [discriminate | intros [post H]; discriminate].
    + destruct (ascii_dec a b) as [->|Hne].
      * rewrite IH. split; intros [post H]; exists post;
          rewrite append_cons in *; congruence.
      * split; [discriminate | intros [post H]].
        rewrite append_cons in H. congruence.
Qed.

Lemma includes_unfold s w :
  JS.includes s w =
  if String.prefix w s then true
  else match s with EmptyString => false | String _ r => JS.includes r w end.
Proof. destruct s; reflexivity. Qed.

Lemma includes_spec s w : JS.includes s w = true <-> occursIn w s.
Proof.
  unfold occursIn. induction s as [|a s IH]; rewrite includes_unfold.
  - destruct (String.prefix w "") eqn:Hp.
    + apply prefix_spec in Hp as [post Hp]. split; [|done].
      intros _. exists "", post. done.
    + split; [discriminate|]. intros (pre & post & H).
      destruct pre; [|discriminate]. simpl in H.
      assert (String.prefix w "" = true) by (apply prefix_spec; eauto). congruence.
  - destruct (String.prefix w (String a s)) eqn:Hp.
    + apply prefix_spec in Hp as [post Hp]. split; [|done].
      intros _. exists "", post. done.
    + rewrite IH. split.
      * intros (pre & post & ->). exists (String a pre), post. done.
      * intros (pre & post & H). destruct pre as [|b pre].
        -- assert (String.prefix w (String a s) = true) by (apply prefix_spec; eauto).
           congruence.
        -- rewrite append_cons in H. injection H as _ ->. eauto.
Qed.

(** ** Characters *)

Lemma sepb_separates c : sepb c = true <-> separates c.
Proof.
  unfold separates. rewrite <- (bool_decide_spec (c ∈ _)).
  destruct c as [[] [] [] [] [] [] [] []]; vm_compute; done.
Qed.

Lemma sepb_lowerChar c : sepb (JS.lowerChar c) = sepb c.
Proof. destruct c as [[] [] [] [] [] [] [] []]; vm_compute; done. Qed.

Lemma lowerChar_code c :
  nat_of_ascii (JS.lowerChar c)
  = (if (65 <=? nat_of_ascii c) && (nat_of_ascii c <=? 90)
     then nat_of_ascii c + 32 else nat_of_ascii c)%nat.
Proof.
  unfold JS.lowerChar. cbv zeta.
  destruct ((65 <=? nat_of_ascii c) && (nat_of_ascii c <=? 90))%nat eqn:E; [|done].
  apply andb_true_iff in E as [_ E]. apply Nat.leb_le in E.
  apply nat_ascii_embedding. lia.
Qed.

Lemma lowerChar_same c d : JS.lowerChar c = JS.lowerChar d <-> sameLetter c d.
Proof.
  unfold sameLetter. cbv zeta. split.
  - intros H. apply (f_equal nat_of_ascii) in H. rewrite !lowerChar_code in H.
    repeat case_match; repeat (rewrite ?andb_true_iff, ?andb_false_iff,
      ?Nat.leb_le, ?Nat.leb_gt in *); lia.
  - intros H.
    rewrite <- (ascii_nat_embedding (JS.lowerChar c)),
            <- (ascii_nat_embedding (JS.lowerChar d)).
    f_equal. rewrite !lowerChar_code.
    repeat case_match; repeat (rewrite ?andb_true_iff, ?andb_false_iff,
      ?Nat.leb_le, ?Nat.leb_gt in *); lia.
Qed.

(** ** Lower case and occurrence *)

Lemma toLowerCase_app a b :
  JS.toLowerCase (a +:+ b) = JS.toLowerCase a +:+ JS.toLowerCase b.
Proof.
  induction a as [|x a IH]; [done|].
  rewrite append_cons. cbn [JS.toLowerCase]. by rewrite IH, append_cons.
Qed.

Lemma toLowerCase_length s : String.length (JS.toLowerCase s) = String.length s.
Proof. induction s as [|x s IH]; [done|]. cbn. by rewrite IH. Qed.

Lemma toLowerCase_split s x y :
  JS.toLowerCase s = x +:+ y ->
  exists a b, s = a +:+ b /\ JS.toLowerCase a = x /\ JS.toLowerCase b = y.
Proof.
  revert s. induction x as [|c x IH]; intros s H.
  - exists "", s. done.
  - destruct s as [|d s]; [discriminate|].
    cbn [JS.toLowerCase] in H. rewrite append_cons in H. injection H as Hc H.
    destruct (IH s H) as (a & b & -> & Ha & Hb).
    exists (String d a), b. split; [done|]. split; [|done].
    cbn [JS.toLowerCase]. by rewrite Hc, Ha.
Qed.

Lemma toLowerCase_same a b : JS.toLowerCase a = JS.toLowerCase b <-> sameText a b.
Proof.
  revert b. induction a as [|c a IH]; intros [|d b]; cbn [JS.toLowerCase sameText];
    try (split; [discriminate | done]); [done|].
  rewrite <- IH, <- lowerChar_same. split.
  - intros H. by injection H.
  - by intros [-> ->].
Qed.

Lemma occursIn_toLowerCase w s :
  occursIn w (JS.toLowerCase s) <-> exists u, occursIn u s /\ JS.toLowerCase u = w.
Proof.
  unfold occursIn. split.
  - intros (pre & post & H).
    apply toLowerCase_split in H as (a & b & -> & Ha & H).
    apply toLowerCase_split in H as (u & c & -> & Hu & Hc).
    exists u. split; [by exists a, c | done].
  - intros (u & (pre & post & ->) & <-).
    exists (JS.toLowerCase pre), (JS.toLowerCase post).
    by rewrite !toLowerCase_app.
Qed.

(** ** The words of a location *)

Lemma filter_truthy_cons acc l :
  List.filter truthy (acc :: l)
  = if truthy acc then acc :: List.filter truthy l else List.filter truthy l.
Proof. done. Qed.

Lemma splitWs_runs t b acc :
  (b = true -> acc = "") ->
  List.filter truthy (JS.splitWsFrom b acc (JS.replacePunct t))
  = List.filter truthy (runsFrom acc t).
Proof.
  revert b acc. induction t as [|c r IH]; intros b acc Hb; [done|].
  cbn [JS.replacePunct JS.splitWsFrom runsFrom]. unfold sepb.
  destruct (JS.isPunct c) eqn:Hp.
  - rewrite orb_true_r. change (JS.isSpace " ") with true. cbv iota.
    destruct b.
    + rewrite (Hb eq_refl). rewrite filter_truthy_cons. cbn [truthy JS.isEmpty negb].
      by apply IH.
    + rewrite !filter_truthy_cons. by rewrite IH.
  - rewrite orb_false_r. destruct (JS.isSpace c).
    + destruct b.
      * rewrite (Hb eq_refl). rewrite filter_truthy_cons. cbn [truthy JS.isEmpty negb].
        by apply IH.
      * rewrite !filter_truthy_cons. by rewrite IH.
    + by apply IH.
Qed.

Lemma splitWs_inRun r :
  List.filter truthy (JS.splitWsFrom true "" r)
  = List.filter truthy (JS.splitWsFrom false "" r).
Proof. destruct r as [|c r]; [done|]. cbn [JS.splitWsFrom]. by destruct (JS.isSpace c). Qed.

Lemma splitWs_trimStart x :
  List.filter truthy (JS.splitWsFrom false "" (JS.trimStart x))
  = List.filter truthy (JS.splitWsFrom false "" x).
Proof.
  induction x as [|c r IH]; [done|].
  cbn [JS.trimStart]. destruct (JS.isSpace c) eqn:Hc; [|done].
  rewrite IH. cbn [JS.splitWsFrom]. rewrite Hc, filter_truthy_cons.
  cbn [truthy JS.isEmpty negb]. by rewrite splitWs_inRun.
Qed.

Lemma isEmpty_true s : JS.isEmpty s = true -> s = "".
Proof. by destruct s. Qed.

Lemma splitWs_blank x b acc :
  JS.trimEnd x = "" -> (b = true -> acc = "") ->
  List.filter truthy (JS.splitWsFrom b acc x) = List.filter truthy [acc].
Proof.
  revert b acc. induction x as [|c r IH]; intros b acc Hx Hb; [done|].
  cbn [JS.trimEnd] in Hx.
  destruct (JS.isSpace c && JS.isEmpty (JS.trimEnd r)) eqn:E; [|discriminate].
  apply andb_true_iff in E as [Hc Hr]. apply isEmpty_true in Hr.
  cbn [JS.splitWsFrom]. rewrite Hc. destruct b.
  - rewrite (Hb eq_refl). by rewrite (IH true "").
  - rewrite filter_truthy_cons, (IH true "") by done.
    cbn. by destruct (truthy acc).
Qed.

Lemma splitWs_trimEnd x b acc :
  (b = true -> acc = "") ->
  List.filter truthy (JS.splitWsFrom b acc (JS.trimEnd x))
  = List.filter truthy (JS.splitWsFrom b acc x).
Proof.
  revert b acc. induction x as [|c r IH]; intros b acc Hb; [done|].
  cbn [JS.trimEnd].
  destruct (JS.isSpace c && JS.isEmpty (JS.trimEnd r)) eqn:E.
  - symmetry. apply splitWs_blank; [|done]. cbn [JS.trimEnd]. by rewrite E.
  - cbn [JS.splitWsFrom]. destruct (JS.isSpace c).
    + destruct b; rewrite ?filter_truthy_cons, IH; done.
    + by apply IH.
Qed.

Lemma splitWs_trim x :
  List.filter truthy (JS.splitWs (JS.trim x)) = List.filter truthy (JS.splitWs x).
Proof.
  unfold JS.splitWs, JS.trim. rewrite splitWs_trimEnd by done. apply splitWs_trimStart.
Qed.

Lemma runsFrom_toLowerCase s acc :
  runsFrom (JS.toLowerCase acc) (JS.toLowerCase s) = map JS.toLowerCase (runsFrom acc s).
Proof.
  revert acc. induction s as [|c r IH]; intros acc; [done|].
  cbn [JS.toLowerCase runsFrom]. rewrite sepb_lowerChar. destruct (sepb c).
  - cbn [map]. f_equal. apply (IH "").
  - rewrite <- IH. by rewrite toLowerCase_app.
Qed.

(** The significant words the code computes are the pieces between
    separators of the lowercased location. *)
Lemma locWords_runs location :
  List.filter truthy (locWords location)
  = List.filter truthy (map JS.toLowerCase (runsFrom "" location)).
Proof.
  unfold locWords. rewrite splitWs_trim. unfold JS.splitWs.
  rewrite splitWs_runs by done. by rewrite <- runsFrom_toLowerCase.
Qed.

Lemma noSepb_spec w : noSepb w = true <-> forall c, inText c w -> ~ separates c.
Proof.
  unfold inText. induction w as [|d w IH]; cbn [noSepb].
  - split; [|done]. intros _ c (a & b & H). by destruct a.
  - rewrite andb_true_iff, negb_true_iff, IH. split.
    + intros [Hd Hw] c (a & b & H) Hc. destruct a as [|x a].
      * injection H as -> ->. apply sepb_separates in Hc. congruence.
      * rewrite append_cons in H. injection H as -> ->. apply (Hw c); eauto.
    + intros H. split.
      * destruct (sepb d) eqn:Hd; [|done]. exfalso.
        apply (H d); [by exists "", w | by apply sepb_separates].
      * intros c (a & b & ->). apply H. by exists (String d a), b.
Qed.

Lemma noSepb_app a b : noSepb (a +:+ b) = noSepb a && noSepb b.
Proof.
  induction a as [|x a IH]; [done|].
  rewrite append_cons. cbn [noSepb]. by rewrite IH, andb_assoc.
Qed.

Lemma runsFrom_run a acc s :
  noSepb a = true -> runsFrom acc (a +:+ s) = runsFrom (acc +:+ a) s.
Proof.
  revert acc. induction a as [|x a IH]; intros acc Ha.
  - by rewrite append_empty.
  - cbn [noSepb] in Ha. apply andb_true_iff in Ha as [Hx Ha].
    apply negb_true_iff in Hx. rewrite append_cons. cbn [runsFrom]. rewrite Hx.
    rewrite IH by done. by rewrite append_snoc.
Qed.

Lemma runsFrom_after p c x acc :
  sepb c = true ->
  exists l, runsFrom acc ((p +:+ String c "") +:+ x) = (l ++ runsFrom "" x)%list.
Proof.
  intros Hc. revert acc. induction p as [|d p IH]; intros acc.
  - exists [acc]. change (("" +:+ String c "") +:+ x) with (String c x).
    cbn [runsFrom]. by rewrite Hc.
  - rewrite !append_cons. cbn [runsFrom]. destruct (sepb d).
    + destruct (IH "") as [l ->]. by exists (acc :: l).
    + apply IH.
Qed.

Lemma runsFrom_first a acc post :
  noSepb a = true -> closed post -> (acc +:+ a) ∈ runsFrom acc (a +:+ post).
Proof.
  intros Ha Hpost. rewrite runsFrom_run by done.
  destruct Hpost as [->|(c & r & -> & Hc)]; cbn [runsFrom].
  - apply list_elem_of_here.
  - rewrite Hc. apply list_elem_of_here.
Qed.

Lemma runsFrom_inv s acc w :
  w ∈ runsFrom acc s ->
  (exists a post, w = acc +:+ a /\ s = a +:+ post /\ noSepb a = true /\ closed post)
  \/ (exists p c a post,
        s = (p +:+ String c "") +:+ a +:+ post /\ sepb c = true
        /\ w = a /\ noSepb a = true /\ closed post).
Proof.
  revert acc. induction s as [|d s IH]; intros acc Hw; cbn [runsFrom] in Hw.
  - apply list_elem_of_singleton in Hw as ->. left.
    exists "", "". rewrite append_empty. split_and!; try done. by left.
  - destruct (sepb d) eqn:Hd.
    + apply elem_of_cons in Hw as [->|Hw].
      * left. exists "", (String d s). rewrite append_empty.
        split_and!; try done. right. by exists d, s.
      * right. destruct (IH "" Hw) as [(a & post & -> & -> & Ha & Hpost)
                                      |(p & c & a & post & -> & Hc & -> & Ha & Hpost)].
        -- exists "", d, a, post. by split_and!.
        -- exists (String d p), c, a, post. by split_and!.
    + destruct (IH _ Hw) as [(a & post & -> & -> & Ha & Hpost)
                            |(p & c & a & post & -> & Hc & -> & Ha & Hpost)].
      * left. exists (String d a), post. split_and!; try done.
        -- by rewrite append_snoc.
        -- cbn [noSepb]. by rewrite Hd, Ha.
      * right. exists (String d p), c, a, post. by split_and!.
Qed.

Lemma closed_spec post :
  closed post <-> post = "" \/ exists c r, post = String c r /\ separates c.
Proof.
  unfold closed. split; (intros [->|(c & r & -> & Hc)]; [by left|]);
    right; exists c, r; (split; [done|]); by apply sepb_separates.
Qed.

(** The non-empty pieces between separators are the words. *)
Lemma runsFrom_words s w : w <> "" -> w ∈ runsFrom "" s <-> wordOf s w.
Proof.
  intros Hne. unfold wordOf. split.
  - intros Hw. split; [done|].
    destruct (runsFrom_inv s "" w Hw) as [(a & post & -> & -> & Ha & Hpost)
                                        |(p & c & a & post & -> & Hc & -> & Ha & Hpost)].
    + split; [by apply noSepb_spec|]. exists "", post.
      split_and!; [done | by left | by apply closed_spec].
    + split; [by apply noSepb_spec|]. exists (p +:+ String c ""), post.
      split_and!; [done | | by apply closed_spec].
      right. exists p, c. split; [done | by apply sepb_separates].
  - intros (_ & Hw & pre & post & -> & Hpre & Hpost).
    apply noSepb_spec in Hw. apply closed_spec in Hpost.
    destruct Hpre as [->|(p & c & -> & Hc)].
    + by apply (runsFrom_first w "").
    + apply sepb_separates in Hc.
      destruct (runsFrom_after p c (w +:+ post) "" Hc) as [l ->].
      apply elem_of_app. right. by apply (runsFrom_first w "").
Qed.

Lemma truthy_spec s : truthy s = true <-> s <> "".
Proof. by destruct s. Qed.

Lemma toLowerCase_empty s : JS.toLowerCase s = "" <-> s = "".
Proof. by destruct s. Qed.

(** The words of [locWords], the empty one aside, are the words of the
    location in lower case. *)
Lemma locWords_words location w :
  w <> "" ->
  w ∈ locWords location <-> exists w0, wordOf location w0 /\ w = JS.toLowerCase w0.
Proof.
  intros Hne.
  assert (w ∈ locWords location <-> w ∈ List.filter truthy (locWords location)) as ->.
  { rewrite !list_elem_of_In, filter_In, truthy_spec. tauto. }
  rewrite locWords_runs, list_elem_of_In, filter_In, in_map_iff. split.
  - intros [(w0 & <- & Hin) _]. exists w0. split; [|done].
    apply runsFrom_words; [|by apply list_elem_of_In].
    intros ->. done.
  - intros (w0 & Hw0 & ->). split; [|by apply truthy_spec].
    exists w0. split; [done|]. apply list_elem_of_In, runsFrom_words; [|done].
    by destruct Hw0.
Qed.

(** The filter predicate of [parseVenues] decides the match as the
    specification words it. *)
Lemma isLocal_matches location v :
  isLocal (locWords location) v = true <-> matchesLocation location v.
Proof.
  unfold isLocal, matchesLocation, vCity. rewrite existsb_exists. split.
  - intros (w & Hin & H). apply andb_true_iff in H as [Hlen Hinc].
    apply Nat.ltb_lt in Hlen. apply includes_spec in Hinc.
    apply list_elem_of_In, locWords_words in Hin as (w0 & Hw0 & ->).
    2:{ intros ->. cbn in Hlen. lia. }
    apply occursIn_toLowerCase in Hinc as (u & Hu & Hsame).
    exists w0, u. rewrite toLowerCase_length in Hlen.
    split_and!; try done. by apply toLowerCase_same.
  - intros (w & u & Hw & Hlen & Hu & Hsame).
    exists (JS.toLowerCase w). split; [|apply andb_true_iff; split].
    + apply list_elem_of_In, locWords_words; [|by eauto].
      rewrite toLowerCase_empty. by destruct Hw.
    + apply Nat.ltb_lt. by rewrite toLowerCase_length.
    + apply includes_spec, occursIn_toLowerCase. exists u. split; [done|].
      symmetry. by apply toLowerCase_same.
Qed.

Example matches_in_capitals :
  matchesLocation "New York, NY" (toVenue (Sample.hit "Los Tacos" "NEW YORK"))
  /\ ~ matchesLocation "New York, NY" (toVenue (Sample.hit "Taqueria" "Chicago")).
Proof.
  split.
  - apply isLocal_matches. vm_compute. reflexivity.
  - rewrite <- isLocal_matches. vm_compute. discriminate.
Qed.

Example parseVenues_mixed :
  parseVenues Sample.mixed "New York, NY"
  = [toVenue (Sample.hit "Oxomoco" "New York"); toVenue (Sample.hit "Los Tacos" "NEW YORK")].
Proof. vm_compute. reflexivity. Qed.

(** ** The venue parser *)


Lemma filter_all {A} (p : A -> bool) l :
  Forall (fun x => p x = true) l -> List.filter p l = l.
Proof.
  induction 1 as [|x l Hx _ IH]; simpl; [done|]. by rewrite Hx, IH.
Qed.

Lemma filter_none {A} (p : A -> bool) l :
  Forall (fun x => p x = false) l -> List.filter p l = [].
Proof.
  induction 1 as [|x l Hx _ IH]; simpl; [done|]. by rewrite Hx.
Qed.

Lemma filter_holds {A} (p : A -> bool) l : Forall (fun x => p x = true) (List.filter p l).
Proof.
  induction l as [|x l IH]; simpl; [constructor|].
  destruct (p x) eqn:Hx; [by constructor | done].
Qed.

Lemma filter_nil_fails {A} (p : A -> bool) l :
  List.filter p l = [] -> Forall (fun x => p x = false) l.
Proof.
  induction l as [|x l IH]; simpl; [constructor|].
  destruct (p x) eqn:Hx; [discriminate|]. intros H. constructor; auto.
Qed.

Lemma postFilter_cases location all :
  let local := List.filter (isLocal (locWords location)) all in
  (local <> [] /\ postFilter location all = take 5 local)
  \/ (local = [] /\ postFilter location all = take 5 all).
Proof.
  unfold postFilter. simpl.
  destruct (List.filter (isLocal (locWords location)) all) as [|v l] eqn:E; simpl.
  - by right.
  - left. split; [done|]. reflexivity.
Qed.



Lemma toVenue_asHit v : toVenue (asHit v) = v.
Proof. by destruct v. Qed.

Lemma map_toVenue_asHit vs : map toVenue (map asHit vs) = vs.
Proof. induction vs as [|v vs IH]; simpl; [done|]. by rewrite toVenue_asHit, IH. Qed.

Lemma postFilter_fixed location all :
  postFilter location (postFilter location all) = postFilter location all.
Proof.
  pose proof (filter_holds (isLocal (locWords location)) all) as Hholds.
  destruct (postFilter_cases location all) as [[Hne ->]|[Hnil ->]].
  - unfold postFilter. rewrite filter_all by by apply Forall_take.
    destruct (List.filter _ all) as [|v l]; [done|]. simpl.
    by rewrite take_idemp.
  - unfold postFilter. rewrite filter_none.
    + simpl. by rewrite take_idemp.
    + apply Forall_take. by apply filter_nil_fails.
Qed.

(** C9: the post-filter of [parseVenues] (significant-word match, fall back
    to the unfiltered list, cap at five) is idempotent: applied to its own
    output it returns that output, for every location and venue list; and
    so [parseVenues] run on its own result, written back as hits, returns
    that result. *)
Theorem postFilter_idempotent (location : string) (all : list Venue) :
  postFilter location (postFilter location all) = postFilter location all
  /\ forall data,
       parseVenues (Some (map asHit (parseVenues data location))) location
       = parseVenues data location.
Proof.
  split; [apply postFilter_fixed|].
  intros data. unfold parseVenues. simpl.
  rewrite map_toVenue_asHit. apply postFilter_fixed.
Qed.

(** ** The handler *)

(** Symbolic execution of the handler's monad, one primitive at a time. *)

Lemma bind_ret {A B} (a : A) (k : A -> M B) st : bind (ret a) k st = k a st.
Proof. unfold bind, ret. by destruct (k a st). Qed.

Lemma bind_throw {A B} e (k : A -> M B) st : bind (throw e) k st = throw e st.
Proof. reflexivity. Qed.

Lemma bind_get {B} (k : State -> M B) st : bind get k st = k st st.
Proof. unfold bind, get. by destruct (k st st). Qed.

Lemma bind_put {B} st' (k : unit -> M B) st : bind (put st') k st = k tt st'.
Proof. unfold bind, put. by destruct (k tt st'). Qed.

Lemma bind_reset {B} (k : unit -> M B) st : bind reset k st = k tt idleState.
Proof. apply bind_put. Qed.

Lemma bind_need_some {A B} (a : A) (k : A -> M B) st :
  bind (need (Some a)) k st = k a st.
Proof. apply bind_ret. Qed.

Lemma bind_need_none {A B} (k : A -> M B) st :
  bind (need None) k st = throw typeError st.
Proof. reflexivity. Qed.

Lemma bind_call {B} c (k : unit -> M B) st :
  bind (call c) k st = logged c (k tt st).
Proof. unfold bind, call, logged. by destruct (k tt st). Qed.

Lemma bind_assoc {A B C} (m : M A) (k : A -> M B) (h : B -> M C) st :
  bind (bind m k) h st = bind m (fun a => bind (k a) h) st.
Proof.
  unfold bind. destruct (m st) as [[a| |] st1 c1]; try done.
  destruct (k a st1) as [[b| |] st2 c2]; try done.
  destruct (h b st2) as [r st3 c3]. by rewrite app_assoc.
Qed.

Ltac exec1 :=
  first [ rewrite bind_assoc | rewrite bind_ret | rewrite bind_throw
        | rewrite bind_get | rewrite bind_put | rewrite bind_reset
        | rewrite bind_need_some | rewrite bind_need_none | rewrite bind_call ].

Ltac exec :=
  repeat (exec1 || (progress cbn [signal final calls ret throw rendered step search
                               venues pickedVenue slots pickedSlot bookToken
                               bookExpires])).

Lemma logged_outcome {A} c (r : Signal A) st l :
  logged c {| signal := r; final := st; calls := l |}
  = {| signal := r; final := st; calls := c :: l |}.
Proof. done. Qed.

Lemma signal_logged {A} c (o : Outcome A) : signal (logged c o) = signal o.
Proof. done. Qed.

Lemma final_logged {A} c (o : Outcome A) : final (logged c o) = final o.
Proof. done. Qed.

Lemma calls_logged {A} c (o : Outcome A) : calls (logged c o) = c :: calls o.
Proof. done. Qed.

Lemma throw_outcome {A} e st :
  @throw A e st = {| signal := Thrown e; final := st; calls := [] |}.
Proof. done. Qed.

Lemma ret_outcome {A} (a : A) st :
  ret a st = {| signal := Returned a; final := st; calls := [] |}.
Proof. done. Qed.

Lemma default_some {A} (d a : A) : default d (Some a) = a.
Proof. done. Qed.

Lemma rendered_outcome r st :
  rendered r st = {| signal := outcomeOf r; final := st; calls := [] |}.
Proof. by destruct r. Qed.

Ltac run1 :=
  first [ rewrite bind_assoc | rewrite bind_ret | rewrite bind_throw
        | rewrite bind_get | rewrite bind_put | rewrite bind_reset
        | rewrite bind_need_some | rewrite bind_need_none | rewrite bind_call
        | rewrite logged_outcome | rewrite signal_logged | rewrite final_logged
        | rewrite calls_logged | rewrite default_some
        | rewrite throw_outcome | rewrite ret_outcome ].

Ltac run :=
  repeat (run1 || (progress cbn [signal final calls ret throw jsonOf need rendered
                                step search venues pickedVenue slots pickedSlot
                                bookToken bookExpires])).

Ltac split_option :=
  match goal with
  | |- context [jsonOf ?j] => destruct j eqn:?
  | |- context [need ?o] => destruct o eqn:?
  | |- context [rendered ?r] => destruct r eqn:?
  end.

Ltac safe_case :=
  match goal with
  | |- context [match ?x with _ => _ end] =>
      lazymatch x with
      | context [@bind] => fail
      | context [@logged] => fail
      | context [@tryCatch] => fail
      | context [@throw] => fail
      | context [@ret] => fail
      | context [rendered] => fail
      | _ => destruct x eqn:?
      end
  end.

Ltac branches := repeat (progress run || safe_case || split_option).

(** A well-formed session, field by field. *)
Ltac open_session st Hwf :=
  destruct st as [stp s vs pv sl ps bt be];
  unfold wellFormed in Hwf; cbn in Hwf;
  destruct stp;
  [ injection Hwf as -> -> -> -> -> -> ->
  | destruct Hwf as ([? ->] & [? ->] & -> & -> & -> & ->)
  | destruct Hwf as ([? ->] & [? ->] & [? ->] & [? ->] & -> & ->)
  | destruct Hwf as ([? ->] & [? ->] & [? ->] & [? ->] & [? ->] & [? ->]) ].

(** The handler, one step at a time. *)
Lemma handleMessage_unfold P w text st :
  handleMessage P w text st =
  let lower := JS.trim (JS.toLowerCase text) in
  if isResetCommand lower
  then {| signal := Returned msgFresh; final := idleState; calls := [] |}
  else match step st with
       | idle => stepIdle P w text st
       | venue_list =>
           stepVenueList P w lower
             (fun st' => if isResetCommand lower
                         then {| signal := Returned msgFresh; final := idleState;
                                 calls := [] |}
                         else match step st' with
                              | idle => stepIdle P w text st'
                              | _ => pending st'
                              end) st
       | slot_list => stepSlotList P w lower st
       | confirm => stepConfirm P w lower st
       end.
Proof.
  unfold handleMessage. simpl handleMessageF. cbv zeta.
  destruct (isResetCommand _) eqn:Hr; [done|].
  rewrite bind_get. destruct (step st); try done.
  unfold stepVenueList. destruct (bool_decide _); [done|].
  rewrite !bind_get. destruct (validPick _ _); [done|].
  rewrite !bind_reset, bind_get. done.
Qed.

Lemma good_logged {A} c (o : Outcome A) : good (logged c o) <-> good o.
Proof. done. Qed.

Ltac wf_done :=
  try done; try (split; [done|]); unfold wellFormed; simpl;
  repeat split; try done; try (by eexists).

Lemma stepIdle_good P w text : good (stepIdle P w text idleState).
Proof.
  unfold stepIdle, extractSearch, apiSearch. exec. apply good_logged.
  destruct (openai_chat w text) as [e| |[args|]]; exec; [wf_done..| |wf_done].
  apply good_logged.
  destruct (resy_search _ _ _ _) as [e|status body json]; exec; [wf_done|].
  destruct (negb (ok status)); exec; [wf_done|].
  destruct json as [data|]; unfold jsonOf; exec; [|wf_done].
  destruct (length _ =? 0)%nat; exec; [wf_done|].
  destruct (fmtVenueList _ _ _); exec; wf_done.
Qed.

Lemma stepVenueList_good P w lower again st :
  step st = venue_list -> wellFormed st -> good (again idleState) ->
  good (stepVenueList P w lower again st).
Proof.
  intros Hstep Hwf Hagain. unfold wellFormed in Hwf. rewrite Hstep in Hwf.
  destruct Hwf as ([s Hs] & [vs Hvs] & Hpv & Hsl & Hps & Hbt).
  unfold stepVenueList, apiAvailability.
  destruct (bool_decide _); exec; [wf_done|].
  destruct (validPick _ _) as [i|]; exec; [|done].
  rewrite Hvs, Hs. simpl.
  destruct (vs !! i) as [venue|]; exec; [|wf_done; by rewrite Hstep].
  apply good_logged.
  destruct (resy_find _ _ _ _ _ _) as [e|status body json]; exec;
    [wf_done; by rewrite Hstep|].
  destruct (negb (ok status)); exec; [wf_done; by rewrite Hstep|].
  destruct json as [data|]; unfold jsonOf; exec; [|wf_done; by rewrite Hstep].
  split; [done|]. unfold wellFormed. simpl. rewrite Hvs, Hs, Hps, Hbt.
  repeat split; try done; by eexists.
Qed.

Lemma stepSlotList_good P w lower st :
  step st = slot_list -> wellFormed st -> good (stepSlotList P w lower st).
Proof.
  intros Hstep Hwf. pose proof Hwf as Hwf'.
  unfold wellFormed in Hwf. rewrite Hstep in Hwf.
  destruct Hwf as ([s Hs] & [vs Hvs] & [pv Hpv] & [sl Hsl] & Hps & Hbt).
  unfold stepSlotList, apiDetails. exec.
  destruct (bool_decide _); exec.
  { rewrite Hvs, Hs. exec.
    destruct (fmtVenueList _ _ _); exec; (split; [done|]); unfold wellFormed; simpl;
      rewrite Hps, Hbt; repeat split; try done; by eexists. }
  destruct (validPick _ _) as [i|]; exec; [|done].
  rewrite Hsl, Hpv, Hs. simpl.
  destruct (sl !! i) as [slot|]; exec; [|done].
  apply good_logged.
  destruct (resy_details _ _ _ _) as [e|status body json]; exec; [done|].
  destruct (negb (ok status)); exec; [done|].
  destruct json as [details|]; unfold jsonOf; exec; [|done].
  destruct (book_token_value details) as [token|]; exec; [|done].
  destruct (JS.isEmpty token); exec; [done|].
  destruct (fmtConfirm _ _ _ _ _ _ _); exec; (split; [done|]); unfold wellFormed; simpl;
    rewrite Hvs, Hs, Hpv, Hsl; repeat split; try done; by eexists.
Qed.


Ltac good_same := split; [cbn; discriminate | cbn [final]; assumption].

Ltac good_new H1 H2 H3 H4 :=
  split; [cbn; discriminate|]; unfold wellFormed; cbn;
  rewrite ?H1, ?H2, ?H3, ?H4; repeat split; try done; by eexists.

Lemma stepConfirm_good P w lower st :
  step st = confirm -> wellFormed st -> good (stepConfirm P w lower st).
Proof.
  intros Hstep Hwf. pose proof Hwf as Hwf'.
  unfold wellFormed in Hwf. rewrite Hstep in Hwf.
  destruct Hwf as ([s Hs] & [vs Hvs] & [pv Hpv] & [sl Hsl] & [ps Hps] & [bt Hbt]).
  unfold stepConfirm, currentSlotList. exec.
  destruct (isDecline lower); exec.
  { rewrite Hs, Hpv, Hsl. exec. good_new Hvs Hs Hpv Hsl. }
  destruct (isConfirm lower); exec; [|good_same].
  destruct (holdExpired w st); exec.
  { rewrite Hs, Hpv, Hsl. exec. good_new Hvs Hs Hpv Hsl. }
  rewrite Hpv, Hps, Hbt, Hs. exec. simpl.
  unfold tryCatch, apiBook. exec. unfold logged.
  destruct (resy_book w bt) as [e|status body json]; exec.
  - simpl. destruct (bool_decide _); exec; [|good_same].
    rewrite ?Hpv. exec. rewrite ?Hpv. exec. good_new Hvs Hs Hpv Hsl.
  - destruct (status =? 402); exec.
    { simpl. exec. rewrite ?Hpv. exec. good_new Hvs Hs Hpv Hsl. }
    destruct (negb (ok status)); exec.
    { simpl. good_same. }
    destruct json as [result|]; unfold jsonOf; exec; simpl.
    + split; [cbn; discriminate | done].
    + good_same.
Qed.

Lemma handleMessage_good P w text st :
  wellFormed st -> good (handleMessage P w text st).
Proof.
  intros Hwf. unfold handleMessage. simpl handleMessageF.
  destruct (isResetCommand _); exec; [done|].
  destruct (step st) eqn:Hstep.
  - unfold wellFormed in Hwf. rewrite Hstep in Hwf. subst st.
    apply stepIdle_good.
  - apply stepVenueList_good; [done..|].
    exec. apply stepIdle_good.
  - by apply stepSlotList_good.
  - by apply stepConfirm_good.
Qed.

(** Fuel beyond two changes nothing, and with two the handler settles from
    every session: the promise of [handleMessage] is never left pending. *)
Lemma handleMessageF_fuel P n w text st :
  handleMessageF P (S (S n)) w text st = handleMessage P w text st.
Proof.
  unfold handleMessage. simpl handleMessageF.
  destruct (isResetCommand _); [done|].
  rewrite !bind_get. destruct (step st); done.
Qed.

Lemma settles_ret {A} (a : A) : settles (ret a).
Proof. intros st. done. Qed.

Lemma settles_throw {A} e : settles (@throw A e).
Proof. intros st. done. Qed.

Lemma settles_get : settles get.
Proof. intros st. done. Qed.

Lemma settles_put st' : settles (put st').
Proof. intros st. done. Qed.

Lemma settles_call c : settles (call c).
Proof. intros st. done. Qed.

Lemma settles_need {A} (o : option A) : settles (need o).
Proof. destruct o; intros st; done. Qed.

Lemma settles_jsonOf {A} (o : option A) : settles (jsonOf o).
Proof. destruct o; intros st; done. Qed.

Lemma settles_rendered r : settles (rendered r).
Proof. destruct r; intros st; done. Qed.

Lemma settles_bind {A B} (m : M A) (k : A -> M B) :
  settles m -> (forall a, settles (k a)) -> settles (bind m k).
Proof.
  intros Hm Hk st. unfold bind. specialize (Hm st).
  destruct (m st) as [[a| |] st1 c1]; simpl in *; try done.
  specialize (Hk a st1). by destruct (k a st1).
Qed.

Lemma settles_tryCatch {A} (m : M A) (h : Err -> M A) :
  settles m -> (forall e, settles (h e)) -> settles (tryCatch m h).
Proof.
  intros Hm Hh st. unfold tryCatch. specialize (Hm st).
  destruct (m st) as [[a|e|] st1 c1]; simpl in *; try done.
  specialize (Hh e st1). by destruct (h e st1).
Qed.

Create HintDb settle.
#[local] Hint Resolve settles_ret settles_throw settles_get settles_put settles_call
  settles_need settles_jsonOf settles_rendered : settle.

Ltac settle :=
  repeat first
    [ apply settles_bind; [|intros ?]
    | apply settles_tryCatch; [|intros ?]
    | solve [unfold reset; auto with settle]
    | match goal with |- forall _, _ => intros ? end
    | case_match ].

Lemma stepIdle_settles P w text : settles (stepIdle P w text).
Proof. unfold stepIdle, extractSearch, apiSearch. settle. Qed.

Lemma stepSlotList_settles P w lower : settles (stepSlotList P w lower).
Proof. unfold stepSlotList, apiDetails. settle. Qed.

Lemma stepConfirm_settles P w lower : settles (stepConfirm P w lower).
Proof. unfold stepConfirm, currentSlotList, apiBook. settle. Qed.

Lemma stepVenueList_settles P w lower again st :
  signal (again idleState) <> Pending ->
  signal (stepVenueList P w lower again st) <> Pending.
Proof.
  intros Hagain. unfold stepVenueList, apiAvailability.
  destruct (bool_decide _); [by apply settles_bind; settle|].
  rewrite bind_get. destruct (validPick _ _); [|by rewrite bind_reset].
  apply settles_bind; settle.
Qed.

Lemma handleMessage_settles P w text st :
  signal (handleMessage P w text st) <> Pending.
Proof.
  unfold handleMessage. simpl handleMessageF.
  destruct (isResetCommand _); [by apply settles_bind; settle|].
  rewrite bind_get. destruct (step st).
  - apply stepIdle_settles.
  - apply stepVenueList_settles. rewrite bind_get. apply stepIdle_settles.
  - apply stepSlotList_settles.
  - apply stepConfirm_settles.
Qed.

Lemma reachable_wellFormed P st : reachable P st -> wellFormed st.
Proof.
  induction 1 as [|w text st _ IH]; [done|].
  by apply handleMessage_good.
Qed.

Lemma confirms_dispatch lower :
  confirms lower ->
  isResetCommand lower = false /\ isDecline lower = false /\ isConfirm lower = true.
Proof. intros [->|[->| ->]]; vm_compute; auto. Qed.

Lemma handleMessage_confirm P w text st :
  step st = confirm ->
  isResetCommand (JS.trim (JS.toLowerCase text)) = false ->
  handleMessage P w text st = stepConfirm P w (JS.trim (JS.toLowerCase text)) st.
Proof.
  intros Hstep Hr. unfold handleMessage. simpl handleMessageF.
  rewrite Hr, bind_get, Hstep. done.
Qed.

(** ** The scenarios of the specification, on the sample upstream *)

Example scenario_no_results :
  let o := handleMessage Sample.plain Sample.nothingFound "tacos" idleState in
  signal o = Returned (msgNoResults Sample.tacos) /\ final o = idleState.
Proof. vm_compute. split; reflexivity. Qed.

Example scenario_A :
  step Sample.listed = venue_list
  /\ venues Sample.listed
     = Some [toVenue (Sample.hit "Oxomoco" "New York");
             toVenue (Sample.hit "Los Tacos" "New York")].
Proof. vm_compute. split; reflexivity. Qed.

Example scenario_C :
  let o := handleMessage Sample.plain Sample.soldOut "1" Sample.picked in
  signal o = Returned msgTaken /\ final o = Sample.picked.
Proof. vm_compute. split; reflexivity. Qed.

Example scenario_F :
  final (handleMessage Sample.plain (Sample.world 0 200) " RESET" Sample.held) = idleState.
Proof. vm_compute. reflexivity. Qed.

Example scenario_booked :
  let o := handleMessage Sample.plain (Sample.world 500 200) "book" Sample.held in
  signal o = Returned "booked Oxomoco" /\ final o = idleState
  /\ calls o = [CallBook "hold-1"].
Proof. vm_compute. repeat split; reflexivity. Qed.

Example scenario_failed :
  let o := handleMessage Sample.plain (Sample.world 500 500) "yes" Sample.held in
  signal o = Thrown (Error "Booking failed (500): ") /\ final o = Sample.held.
Proof. vm_compute. split; reflexivity. Qed.

Example scenario_turn_failed :
  let r := onMessage Sample.plain "" (Sample.world 500 500)
             {| state := Sample.held; botSentTexts := []; seenGuids := ∅;
                processing := false |} (Sample.inbound "g9" "yes") in
  state r.1 = Sample.held /\ processing r.1 = false
  /\ botSentTexts r.1 = [errReply (Error "Booking failed (500): ")].
Proof. vm_compute. repeat split; reflexivity. Qed.

(** ** Claims on the handler *)

(** C1: in the confirm step, on "yes", "confirm" or "book", a hold whose
    [bookExpires] is earlier than the clock read in that turn is not
    committed: the handler makes no upstream call at all (so [apiBook] is
    not invoked), the step becomes slot_list and [bookToken] is cleared. *)
Theorem expired_hold_never_booked P w st text t :
  step st = confirm ->
  confirms (JS.trim (JS.toLowerCase text)) ->
  bookExpires st = Some (DateAt t) ->
  t < now w ->
  let o := handleMessage P w text st in
  Forall (fun c => isBook c = false) (calls o)
  /\ calls o = []
  /\ step (final o) = slot_list
  /\ bookToken (final o) = None.
Proof.
  intros Hstep Hlower Hexp Hlt.
  apply confirms_dispatch in Hlower as (Hr & Hd & Hc).
  cbv zeta. rewrite handleMessage_confirm by done.
  unfold stepConfirm, currentSlotList. exec. rewrite Hd, Hc.
  unfold holdExpired. rewrite Hexp.
  assert ((t <? now w) = true) as -> by lia. exec.
  destruct (search st); exec; [|by rewrite ?Forall_nil].
  destruct (pickedVenue st); exec; [|by rewrite ?Forall_nil].
  destruct (slots st); exec; by rewrite ?Forall_nil.
Qed.

Lemma expired_hold_never_booked_witness :
  let o := handleMessage Sample.plain (Sample.world 2000 200) "Yes " Sample.held in
  Forall (fun c => isBook c = false) (calls o)
  /\ calls o = []
  /\ step (final o) = slot_list
  /\ bookToken (final o) = None.
Proof.
  apply (expired_hold_never_booked Sample.plain (Sample.world 2000 200)
           Sample.held "Yes " 1000).
  - vm_compute. reflexivity.
  - left. vm_compute. reflexivity.
  - vm_compute. reflexivity.
  - vm_compute. reflexivity.
Defined.

(** C3: for a reachable session in the confirm step, on a confirming word
    with the commit call answering 402, the handler returns a reply (nothing
    is thrown), the step becomes slot_list, [pickedSlot] and [bookToken] are
    cleared, and [pickedVenue], [venues], [slots] and [search] are as
    before. *)
Theorem payment_required_keeps_context P w st text tok body json :
  reachable P st ->
  step st = confirm ->
  confirms (JS.trim (JS.toLowerCase text)) ->
  bookToken st = Some tok ->
  resy_book w tok = Response 402 body json ->
  let o := handleMessage P w text st in
  (exists reply, signal o = Returned reply)
  /\ step (final o) = slot_list
  /\ pickedSlot (final o) = None
  /\ bookToken (final o) = None
  /\ pickedVenue (final o) = pickedVenue st
  /\ venues (final o) = venues st
  /\ slots (final o) = slots st
  /\ search (final o) = search st.
Proof.
  intros Hreach Hstep Hlower Htok Hbook.
  apply reachable_wellFormed in Hreach. unfold wellFormed in Hreach.
  rewrite Hstep in Hreach.
  destruct Hreach as ([s Hs] & [vs Hvs] & [pv Hpv] & [sl Hsl] & [ps Hps] & _).
  apply confirms_dispatch in Hlower as (Hr & Hd & Hc).
  cbv zeta. rewrite handleMessage_confirm by done.
  unfold stepConfirm, currentSlotList. exec. rewrite Hd, Hc.
  destruct (holdExpired w st); exec.
  { rewrite Hs, Hpv, Hsl. exec. rewrite ?Hs, ?Hpv, ?Hsl. eauto 10. }
  rewrite Hpv, Hps, Htok, Hs. exec. simpl.
  unfold tryCatch, apiBook. exec. unfold logged. rewrite Hbook. simpl.
  exec. rewrite ?Hpv. exec. rewrite ?Hs, ?Hpv, ?Hsl. eauto 10.
Qed.

Lemma held_reachable : reachable Sample.plain Sample.held.
Proof.
  unfold Sample.held, Sample.picked, Sample.listed.
  repeat apply reachable_turn. apply reachable_init.
Qed.

Lemma payment_required_keeps_context_witness :
  let o := handleMessage Sample.plain (Sample.world 500 402) "yes" Sample.held in
  (exists reply, signal o = Returned reply)
  /\ step (final o) = slot_list
  /\ pickedSlot (final o) = None
  /\ bookToken (final o) = None
  /\ pickedVenue (final o) = pickedVenue Sample.held
  /\ venues (final o) = venues Sample.held
  /\ slots (final o) = slots Sample.held
  /\ search (final o) = search Sample.held.
Proof.
  apply (payment_required_keeps_context Sample.plain (Sample.world 500 402)
           Sample.held "yes" "hold-1" "" (Some {| resy_token := Some "r-1" |})).
  - exact held_reachable.
  - vm_compute. reflexivity.
  - left. vm_compute. reflexivity.
  - vm_compute. reflexivity.
  - vm_compute. reflexivity.
Defined.

Lemma validPick_none num len :
  (forall k, num = Some k -> k < 1 \/ Z.of_nat len < k) -> validPick num len = None.
Proof.
  intros H. unfold validPick. destruct num as [k|]; [|done].
  destruct (H k eq_refl).
  - assert ((k <? 1) = true) as -> by lia. done.
  - assert ((Z.of_nat len <? k) = true) as -> by lia. by rewrite orb_true_r.
Qed.

Lemma validPick_some num len i :
  validPick num len = Some i ->
  exists k, num = Some k /\ 1 <= k <= Z.of_nat len /\ i = Z.to_nat (k - 1).
Proof.
  unfold validPick. destruct num as [k|]; [|done].
  destruct (k <? 1) eqn:H1; [done|]. destruct (Z.of_nat len <? k) eqn:H2; [done|].
  simpl. intros [= <-]. exists k. split; [done|]. split; [lia|done].
Qed.

Lemma stepIdle_calls P w text st :
  exists rest, calls (stepIdle P w text st) = CallExtract text :: rest.
Proof.
  unfold stepIdle, extractSearch. exec. unfold logged. simpl. eauto.
Qed.

Lemma handleMessage_idle P w text :
  isResetCommand (JS.trim (JS.toLowerCase text)) = false ->
  handleMessage P w text idleState = stepIdle P w text idleState.
Proof.
  intros Hr. unfold handleMessage. simpl handleMessageF.
  rewrite Hr, bind_get. done.
Qed.

(** C4 (amended): in the venue_list step, an input that is not "reset",
    "start over" or "back" and whose number as [parseInt] reads it (an
    optional sign and the leading digits, whatever follows) is missing or
    outside 1..len(venues) resets the session and re-dispatches the same raw
    text: the turn is the idle handler run on that text from the empty
    session, and its first upstream call is the extraction of that text. *)
Theorem venue_list_fallback_redispatch P w st text :
  step st = venue_list ->
  let lower := JS.trim (JS.toLowerCase text) in
  lower <> "reset" -> lower <> "start over" -> lower <> "back" ->
  (forall k, JS.parseInt lower = Some k ->
             k < 1 \/ Z.of_nat (length (default [] (venues st))) < k) ->
  handleMessage P w text st = stepIdle P w text idleState
  /\ handleMessage P w text st = handleMessage P w text idleState
  /\ exists rest, calls (handleMessage P w text st) = CallExtract text :: rest.
Proof.
  intros Hstep lower Hr1 Hr2 Hback Hnum.
  assert (isResetCommand lower = false) as Hr.
  { unfold isResetCommand. by rewrite !bool_decide_eq_false_2. }
  assert (handleMessage P w text st = stepIdle P w text idleState) as Hst.
  { unfold handleMessage. simpl handleMessageF. fold lower.
    rewrite Hr, bind_get, Hstep.
    unfold stepVenueList. rewrite bool_decide_eq_false_2 by done.
    rewrite bind_get, validPick_none by done. rewrite bind_reset, bind_get. done. }
  split; [done|]. split.
  - by rewrite handleMessage_idle.
  - rewrite Hst. apply stepIdle_calls.
Qed.

Lemma venue_list_fallback_redispatch_witness :
  let o := handleMessage Sample.plain (Sample.world 0 200) "7" Sample.listed in
  o = stepIdle Sample.plain (Sample.world 0 200) "7" idleState
  /\ o = handleMessage Sample.plain (Sample.world 0 200) "7" idleState
  /\ exists rest, calls o = CallExtract "7" :: rest.
Proof.
  apply (venue_list_fallback_redispatch Sample.plain (Sample.world 0 200)
           Sample.listed "7").
  - vm_compute. reflexivity.
  - vm_compute. discriminate.
  - vm_compute. discriminate.
  - vm_compute. discriminate.
  - intros k Hk. vm_compute in Hk. injection Hk as <-. right. vm_compute. reflexivity.
Defined.

(** C4 as stated fails: "2 tacos" is none of the commands and is not an
    integer, yet with two venues listed the handler reads it as the number 2
    and fetches the slots of the second venue, with no new search. *)
Lemma numeric_prefix_picks_venue :
  let st := Sample.listed in
  let w := Sample.world 0 200 in
  let text := "2 tacos" in
  let lower := JS.trim (JS.toLowerCase text) in
  let o := handleMessage Sample.plain w text st in
  step st = venue_list
  /\ lower <> "reset" /\ lower <> "start over" /\ lower <> "back"
  /\ integerText lower = None
  /\ o <> handleMessage Sample.plain w text idleState
  /\ step (final o) = slot_list
  /\ Forall (fun c => match c with CallExtract _ => False | _ => True end) (calls o).
Proof.
  cbv zeta.
  repeat split;
    first [ vm_compute; reflexivity | vm_compute; discriminate
          | vm_compute; repeat constructor ].
Qed.

(** C2 (what the code does at the failing input): a reachable session in
    the confirm step whose hold has expired goes back to slot_list on "yes"
    with [pickedSlot] and [bookToken] cleared and [bookExpires] still set. *)
Theorem expired_hold_keeps_bookExpires :
  let o := handleMessage Sample.plain (Sample.world 2000 200) "yes" Sample.held in
  reachable Sample.plain Sample.held
  /\ step Sample.held = confirm
  /\ bookExpires Sample.held = Some (DateAt 1000)
  /\ step (final o) = slot_list
  /\ pickedSlot (final o) = None
  /\ bookToken (final o) = None
  /\ bookExpires (final o) = Some (DateAt 1000).
Proof.
  cbv zeta. split.
  - unfold Sample.held, Sample.picked, Sample.listed.
    repeat apply reachable_turn. apply reachable_init.
  - vm_compute. repeat split.
Qed.

(** The same on the payment-required way out of confirm. *)
Lemma payment_required_keeps_bookExpires :
  let o := handleMessage Sample.plain (Sample.world 500 402) "yes" Sample.held in
  step (final o) = slot_list /\ bookExpires (final o) = Some (DateAt 1000).
Proof. vm_compute. split; reflexivity. Qed.

(** Declining clears all three. *)
Lemma decline_clears_bookExpires P w st text :
  step st = confirm ->
  isDecline (JS.trim (JS.toLowerCase text)) = true ->
  isResetCommand (JS.trim (JS.toLowerCase text)) = false ->
  let o := handleMessage P w text st in
  step (final o) = slot_list /\ pickedSlot (final o) = None
  /\ bookToken (final o) = None /\ bookExpires (final o) = None.
Proof.
  intros Hstep Hd Hr. cbv zeta. rewrite handleMessage_confirm by done.
  unfold stepConfirm, currentSlotList. exec. rewrite Hd. exec.
  destruct (search st); exec; [|done].
  destruct (pickedVenue st); exec; [|done].
  destruct (slots st); exec; done.
Qed.


Lemma parseSlots_entry data venueId :
  (default [] data = [] /\ parseSlots data venueId = [])
  \/ exists entry, entry ∈ default [] data
       /\ parseSlots data venueId = map toSlot (default [] (avail_slots entry)).
Proof.
  unfold parseSlots. cbv zeta.
  destruct (List.find _ (default [] data)) as [entry|] eqn:Hfind.
  - right. exists entry. split; [|done].
    apply find_some in Hfind as [Hin _]. by apply list_elem_of_In.
  - destruct (default [] data) as [|entry rest]; simpl.
    + by left.
    + right. exists entry. split; [by left | done].
Qed.

Lemma handleMessage_venue_list P w text st :
  step st = venue_list ->
  isResetCommand (JS.trim (JS.toLowerCase text)) = false ->
  handleMessage P w text st
  = stepVenueList P w (JS.trim (JS.toLowerCase text)) (handleMessageF P 1 w text) st.
Proof.
  intros Hstep Hr. unfold handleMessage. simpl handleMessageF.
  rewrite Hr, bind_get, Hstep. done.
Qed.

(** C6 as stated fails: after a search and the pick of a venue whose
    availability lists eleven slots, the session in slot_list stores all
    eleven. *)
Lemma stored_slots_exceed_ten :
  reachable Sample.plain Sample.picked
  /\ step Sample.picked = slot_list
  /\ exists sl, slots Sample.picked = Some sl /\ (10 < length sl)%nat.
Proof.
  split; [|split].
  - unfold Sample.picked, Sample.listed.
    repeat apply reachable_turn. apply reachable_init.
  - vm_compute. reflexivity.
  - eexists. split; [vm_compute; reflexivity|]. simpl. lia.
Qed.

Ltac stay_with H := first [done | by rewrite H].


(** From slot_list the session reaches confirm only with one of the
    first ten stored slots picked. *)
Lemma slot_pick_within_ten P w text st :
  step st = slot_list ->
  step (final (handleMessage P w text st)) = confirm ->
  exists sl i, slots st = Some sl /\ (i < 10)%nat
               /\ pickedSlot (final (handleMessage P w text st)) = sl !! i.
Proof.
  intros Hstep.
  unfold handleMessage. simpl handleMessageF.
  destruct (isResetCommand _); exec; [done|]. rewrite Hstep.
  unfold stepSlotList, apiDetails. exec.
  destruct (bool_decide _); exec.
  { destruct (venues st); exec; [|stay_with Hstep].
    destruct (search st); exec; [|stay_with Hstep].
    destruct (fmtVenueList _ _ _); exec; stay_with Hstep. }
  destruct (validPick _ _) as [i|] eqn:Hpick; exec; [|stay_with Hstep].
  apply validPick_some in Hpick as (k & _ & Hk & ->).
  destruct (slots st) as [sl|]; simpl; [|exec; stay_with Hstep].
  destruct (sl !! Z.to_nat (k - 1)) as [slot|] eqn:Hslot; exec; [|stay_with Hstep].
  destruct (pickedVenue st); exec; [|stay_with Hstep].
  destruct (search st); exec; [|stay_with Hstep].
  unfold logged.
  destruct (resy_details _ _ _ _) as [e|status body json]; exec; [stay_with Hstep|].
  destruct (negb (ok status)); exec; [stay_with Hstep|].
  destruct json as [details|]; unfold jsonOf; exec; [|stay_with Hstep].
  destruct (book_token_value details) as [token|]; exec; [|stay_with Hstep].
  destruct (JS.isEmpty token); exec; [stay_with Hstep|].
  intros _. exists sl, (Z.to_nat (k - 1)). split; [done|]. split; [lia|].
  destruct (fmtConfirm _ _ _ _ _ _ _); exec; done.
Qed.

Lemma conversation_reachable P turns st : conversation P turns st -> reachable P st.
Proof. induction 1; [apply reachable_init | by apply reachable_turn]. Qed.

Lemma fetchedSlots_same w st st' :
  pickedVenue st' = pickedVenue st -> search st' = search st -> slots st' = slots st ->
  fetchedSlots w st -> fetchedSlots w st'.
Proof. unfold fetchedSlots. by intros -> -> ->. Qed.

Ltac fetched_leaf :=
  first
    [ right; split; [by auto|]; by split_and!
    | left; unfold fetchedSlots; do 5 eexists; cbn [pickedVenue search slots];
      split_and!; [reflexivity | reflexivity | eassumption
                  | by apply negb_false_iff | reflexivity ] ].

(** What a turn does to the stored slots: a session that ends the turn in
    slot_list or confirm either has the slots this turn fetched for the
    venue this turn picked, or was in slot_list or confirm already and has
    its picked venue, search and slots untouched. *)
Lemma turn_slots P w text st :
  wellFormed st ->
  let st' := final (handleMessage P w text st) in
  step st' = slot_list \/ step st' = confirm ->
  fetchedSlots w st'
  \/ ((step st = slot_list \/ step st = confirm)
      /\ pickedVenue st' = pickedVenue st /\ search st' = search st
      /\ slots st' = slots st).
Proof.
  intros Hwf. rewrite handleMessage_unfold. cbv zeta.
  destruct (isResetCommand _); [by intros [?|?]|].
  open_session st Hwf; cbn [step].
  - unfold stepIdle, extractSearch, apiSearch.
    branches; intros [?|?]; try done.
  - unfold stepVenueList, stepIdle, extractSearch, apiSearch, apiAvailability.
    branches; intros [?|?]; try done; fetched_leaf.
  - unfold stepSlotList, apiDetails.
    branches; intros [?|?]; try done; fetched_leaf.
  - unfold stepConfirm, currentSlotList, apiBook, tryCatch.
    branches; intros [?|?]; try done; fetched_leaf.
Qed.

Lemma conversation_slots P turns st :
  conversation P turns st ->
  step st = slot_list \/ step st = confirm ->
  exists w text, (w, text) ∈ turns /\ fetchedSlots w st.
Proof.
  induction 1 as [|w text turns st Hconv IH]; [by intros [?|?]|].
  intros Hstep.
  pose proof (reachable_wellFormed P st (conversation_reachable P turns st Hconv)) as Hwf.
  destruct (turn_slots P w text st Hwf Hstep) as [Hnew|(Hold & Hpv & Hs & Hsl)].
  - exists w, text. split; [by left | done].
  - destruct (IH Hold) as (w0 & text0 & Hin & Hfetched).
    exists w0, text0. split; [by right|]. by eapply fetchedSlots_same.
Qed.

(** C6 (amended): in every session in the slot_list step that a
    conversation reaches, [slots] holds the slots parsed from the
    availability response that the upstream of one of the conversation's
    turns gives for the session's picked venue and search: one slot per
    upstream slot of one entry of that response (none when it has no
    entry), in upstream order, not re-sorted and not capped at ten. Ten
    bounds what can be picked: a turn that leaves slot_list for confirm
    picks one of the first ten stored slots. This covers the sessions that
    come back to slot_list from confirm. *)
Theorem slot_list_slots_from_upstream P turns st :
  conversation P turns st ->
  step st = slot_list ->
  exists w text pv s status body data,
    (w, text) ∈ turns
    /\ pickedVenue st = Some pv /\ search st = Some s
    /\ resy_find w (venue_id pv) (day s) (party_size s)
         (orElse (lat s) (latitude DEFAULT_GEO)) (orElse (lng s) (longitude DEFAULT_GEO))
       = Response status body (Some data)
    /\ ok status = true
    /\ slots st = Some (parseSlots data (venue_id pv))
    /\ ((default [] data = [] /\ slots st = Some [])
        \/ exists entry, entry ∈ default [] data
             /\ slots st = Some (map toSlot (default [] (avail_slots entry))))
    /\ forall w' text',
         step (final (handleMessage P w' text' st)) = confirm ->
         exists sl i, slots st = Some sl /\ (i < 10)%nat
                      /\ pickedSlot (final (handleMessage P w' text' st)) = sl !! i.
Proof.
  intros Hconv Hstep.
  destruct (conversation_slots P turns st Hconv (or_introl Hstep))
    as (w & text & Hin & pv & s & status & body & data & Hpv & Hs & Hfind & Hok & Hsl).
  exists w, text, pv, s, status, body, data. split_and!; try done.
  - rewrite Hsl.
    destruct (parseSlots_entry data (venue_id pv)) as [[Hnil ->]|(entry & He & ->)];
      eauto.
  - intros w' text'. by apply slot_pick_within_ten.
Qed.

Lemma reopened_conversation : conversation Sample.plain Sample.dialogue Sample.reopened.
Proof.
  unfold Sample.dialogue, Sample.reopened, Sample.held, Sample.picked, Sample.listed.
  repeat apply conversation_turn. apply conversation_start.
Qed.

Lemma slot_list_slots_from_upstream_witness :
  let st := Sample.reopened in
  exists w text pv s status body data,
    (w, text) ∈ Sample.dialogue
    /\ pickedVenue st = Some pv /\ search st = Some s
    /\ resy_find w (venue_id pv) (day s) (party_size s)
         (orElse (lat s) (latitude DEFAULT_GEO)) (orElse (lng s) (longitude DEFAULT_GEO))
       = Response status body (Some data)
    /\ ok status = true
    /\ slots st = Some (parseSlots data (venue_id pv))
    /\ ((default [] data = [] /\ slots st = Some [])
        \/ exists entry, entry ∈ default [] data
             /\ slots st = Some (map toSlot (default [] (avail_slots entry))))
    /\ forall w' text',
         step (final (handleMessage Sample.plain w' text' st)) = confirm ->
         exists sl i, slots st = Some sl /\ (i < 10)%nat
                      /\ pickedSlot (final (handleMessage Sample.plain w' text' st))
                         = sl !! i.
Proof.
  apply (slot_list_slots_from_upstream Sample.plain Sample.dialogue Sample.reopened).
  - exact reopened_conversation.
  - vm_compute. reflexivity.
Defined.

(** ** The watcher *)

Lemma setDelete_spec x y l : x ∈ setDelete y l <-> x ∈ l /\ x <> y.
Proof.
  unfold setDelete. rewrite !list_elem_of_In, filter_In, negb_true_iff.
  rewrite String.eqb_neq. split; intros [H1 H2]; split; congruence.
Qed.



Section WatcherFacts.

Context (P : Presentation) (MY_ID : string).

Lemma arrive_state g msg : state (arrive MY_ID g msg).1 = state g.
Proof.
  unfold arrive. destruct (inScope MY_ID msg); [|done].
  repeat (case_match; try done).
Qed.

Lemma arrive_seen g msg : seenGuids g ⊆ seenGuids (arrive MY_ID g msg).1.
Proof.
  unfold arrive. destruct (inScope MY_ID msg); [|done].
  repeat (case_match; simpl; try done); set_solver.
Qed.

Lemma turn_seen w g msg t : seenGuids (turn P w g msg t).1 = seenGuids g.
Proof. unfold turn. repeat (case_match; simpl; try done). Qed.

Lemma gwStep_seen g g' : gwStep P MY_ID g g' -> seenGuids g ⊆ seenGuids g'.
Proof. destruct 1; [apply arrive_seen | by rewrite turn_seen]. Qed.


Lemma gwSteps_seen g g' : rtc (gwStep P MY_ID) g g' -> seenGuids g ⊆ seenGuids g'.
Proof.
  induction 1 as [|g g1 g2 Hstep _ IH]; [done|].
  etrans; [by apply gwStep_seen | done].
Qed.

Lemma arrive_busy_inv g msg :
  (arrive MY_ID g msg).2 = Busy ->
  processing g = true /\ guid msg ∈ seenGuids (arrive MY_ID g msg).1.
Proof.
  unfold arrive. destruct (inScope MY_ID msg); [|done].
  repeat (case_match; simpl; try done). intros _. split; [done|]. set_solver.
Qed.

Lemma arrive_seen_guid g msg :
  guid msg ∈ seenGuids g ->
  arrive MY_ID g msg = (g, Ignored) \/ arrive MY_ID g msg = (g, Duplicate).
Proof.
  intros Hseen. unfold arrive. destruct (inScope MY_ID msg); [|by left].
  rewrite bool_decide_eq_true_2 by done. by right.
Qed.


(** C7: an event that arrives while [processing] is true is not handed to
    the handler, leaves the session as it is and sends nothing; the flag
    stays up. *)
Theorem busy_event_dropped w g msg :
  processing g = true ->
  let r := onMessage P MY_ID w g msg in
  (forall t, (arrive MY_ID g msg).2 <> Accepted t)
  /\ r.2 = []
  /\ state r.1 = state g
  /\ processing r.1 = true.
Proof.
  intros Hbusy. unfold onMessage, arrive.
  destruct (inScope MY_ID msg); [|done].
  rewrite Hbusy. repeat (case_match; simplify_eq; simpl; try done).
Qed.

(** C10: an event dropped because [processing] was true has its GUID in
    [seenGuids] from then on, so after any further arrivals and turns a
    redelivery with that GUID is not accepted: it runs no handler, sends
    nothing and changes nothing. *)
Theorem dropped_event_never_processed g msg :
  (arrive MY_ID g msg).2 = Busy ->
  let g1 := (arrive MY_ID g msg).1 in
  processing g = true
  /\ guid msg ∈ seenGuids g1
  /\ state g1 = state g
  /\ forall g2, rtc (gwStep P MY_ID) g1 g2 ->
     forall w msg', guid msg' = guid msg ->
       (forall t, (arrive MY_ID g2 msg').2 <> Accepted t)
       /\ onMessage P MY_ID w g2 msg' = (g2, []).
Proof.
  intros Hbusy g1. apply arrive_busy_inv in Hbusy as [Hproc Hseen].
  split; [done|]. split; [done|]. split; [apply arrive_state|].
  intros g2 Hsteps w msg' Hguid.
  assert (guid msg' ∈ seenGuids g2) as Hseen2.
  { rewrite Hguid. by apply (gwSteps_seen _ _ Hsteps). }
  unfold onMessage.
  destruct (arrive_seen_guid g2 msg' Hseen2) as [-> | ->]; done.
Qed.


End WatcherFacts.

(** ** The watcher on the sample conversation *)

Lemma busy_event_dropped_witness :
  let msg := Sample.inbound "g2" "1" in
  let r := onMessage Sample.plain "" (Sample.world 0 200) Sample.inFlight msg in
  (forall t, (arrive "" Sample.inFlight msg).2 <> Accepted t)
  /\ r.2 = []
  /\ state r.1 = state Sample.inFlight
  /\ processing r.1 = true.
Proof.
  apply (busy_event_dropped Sample.plain "" (Sample.world 0 200) Sample.inFlight
           (Sample.inbound "g2" "1")).
  vm_compute. reflexivity.
Defined.

Lemma dropped_event_never_processed_witness :
  let msg := Sample.inbound "g2" "1" in
  let g1 := (arrive "" Sample.inFlight msg).1 in
  processing Sample.inFlight = true
  /\ guid msg ∈ seenGuids g1
  /\ state g1 = state Sample.inFlight
  /\ forall g2, rtc (gwStep Sample.plain "") g1 g2 ->
     forall w msg', guid msg' = guid msg ->
       (forall t, (arrive "" g2 msg').2 <> Accepted t)
       /\ onMessage Sample.plain "" w g2 msg' = (g2, []).
Proof.
  apply (dropped_event_never_processed Sample.plain "" Sample.inFlight
           (Sample.inbound "g2" "1")).
  vm_compute. reflexivity.
Defined.



(** * Further properties of the handler *)

Lemma stepIdle_steps P w text st :
  step st = idle -> allowed idle (step (final (stepIdle P w text st))) = true.
Proof.
  intros Hstep. unfold stepIdle, extractSearch, apiSearch.
  branches; rewrite ?Hstep; done.
Qed.

Lemma stepVenueList_steps P w lower again st :
  step st = venue_list ->
  allowed idle (step (final (again idleState))) = true ->
  allowed venue_list (step (final (stepVenueList P w lower again st))) = true.
Proof.
  intros Hstep Hagain. unfold stepVenueList, apiAvailability.
  branches; rewrite ?Hstep; try done.
  by destruct (step (final (again idleState))).
Qed.

Lemma stepConfirm_steps P w lower st :
  step st = confirm ->
  allowed confirm (step (final (stepConfirm P w lower st))) = true.
Proof.
  intros Hstep. unfold stepConfirm, currentSlotList, apiBook, tryCatch.
  branches; rewrite ?Hstep; done.
Qed.

(** X1: whatever the session and the input, one turn moves the step only
    along the transitions of the handler: idle to idle or venue_list;
    venue_list to idle, venue_list or slot_list; slot_list anywhere; confirm
    to idle, slot_list or confirm. In particular no turn leads from idle or
    venue_list straight to confirm, or from confirm back to venue_list. *)
Theorem step_follows_table P w text st :
  allowed (step st) (step (final (handleMessage P w text st))) = true.
Proof.
  rewrite handleMessage_unfold. cbv zeta.
  destruct (isResetCommand _); [by destruct (step st)|].
  destruct (step st) eqn:Hstep.
  - by apply stepIdle_steps.
  - apply stepVenueList_steps; [done|]. simpl. by apply stepIdle_steps.
  - done.
  - by apply stepConfirm_steps.
Qed.

Lemma handleMessage_at_idle P w text st :
  step st = idle ->
  isResetCommand (JS.trim (JS.toLowerCase text)) = false ->
  handleMessage P w text st = stepIdle P w text st.
Proof. intros Hstep Hr. rewrite handleMessage_unfold. cbv zeta. by rewrite Hr, Hstep. Qed.

Lemma handleMessage_at_slot_list P w text st :
  step st = slot_list ->
  isResetCommand (JS.trim (JS.toLowerCase text)) = false ->
  handleMessage P w text st = stepSlotList P w (JS.trim (JS.toLowerCase text)) st.
Proof. intros Hstep Hr. rewrite handleMessage_unfold. cbv zeta. by rewrite Hr, Hstep. Qed.




Ltac not_a_booking :=
  let Hin := fresh in
  let Hb := fresh in
  intros Hin Hb; exfalso; set_unfold in Hin; destruct_or?; subst; try done;
  cbn in Hb; done.

(** X3: a turn calls the commit endpoint only in the confirm step, on a
    confirming word, with a hold that has not expired; it is then the only
    upstream call of the turn and carries the stored [bookToken]. So no
    input books outside a confirmation, and no turn books twice. *)
Theorem booking_only_on_live_confirmation P w text st c :
  c ∈ calls (handleMessage P w text st) ->
  isBook c = true ->
  step st = confirm
  /\ isConfirm (JS.trim (JS.toLowerCase text)) = true
  /\ holdExpired w st = false
  /\ calls (handleMessage P w text st) = [CallBook (default "undefined" (bookToken st))].
Proof.
  rewrite handleMessage_unfold. cbv zeta.
  destruct (isResetCommand _); [by intros ?%elem_of_nil|].
  destruct (step st) eqn:Hstep.
  - unfold stepIdle, extractSearch, apiSearch. branches; not_a_booking.
  - unfold stepVenueList, stepIdle, extractSearch, apiSearch, apiAvailability.
    branches; not_a_booking.
  - unfold stepSlotList, apiDetails. branches; not_a_booking.
  - unfold stepConfirm, currentSlotList, apiBook, tryCatch.
    branches; first [not_a_booking | done].
Qed.

Lemma booking_only_on_live_confirmation_witness :
  let w := Sample.world 0 200 in
  step Sample.held = confirm
  /\ isConfirm (JS.trim (JS.toLowerCase "Yes ")) = true
  /\ holdExpired w Sample.held = false
  /\ calls (handleMessage Sample.plain w "Yes " Sample.held)
     = [CallBook (default "undefined" (bookToken Sample.held))].
Proof.
  apply (booking_only_on_live_confirmation Sample.plain (Sample.world 0 200) "Yes "
           Sample.held (CallBook "hold-1")).
  - vm_compute. constructor.
  - vm_compute. reflexivity.
Defined.

(** X4: once the session is in slot_list or confirm, a turn either empties
    it (a reset, or a booking that went through) or leaves [search] and
    [venues] as they were: the search is never replaced under a picked
    venue. *)
Theorem search_kept_under_pick P w text st :
  step st = slot_list \/ step st = confirm ->
  final (handleMessage P w text st) = idleState
  \/ (search (final (handleMessage P w text st)) = search st
      /\ venues (final (handleMessage P w text st)) = venues st).
Proof.
  intros Hstep. rewrite handleMessage_unfold. cbv zeta.
  destruct (isResetCommand _); [by left|].
  destruct Hstep as [-> | ->].
  - unfold stepSlotList, apiDetails. branches; first [by left | by right].
  - unfold stepConfirm, currentSlotList, apiBook, tryCatch.
    branches; first [by left | by right].
Qed.

Lemma search_kept_under_pick_witness :
  let o := handleMessage Sample.plain (Sample.world 0 200) "no" Sample.held in
  final o = idleState
  \/ (search (final o) = search Sample.held /\ venues (final o) = venues Sample.held).
Proof.
  apply (search_kept_under_pick Sample.plain (Sample.world 0 200) "no" Sample.held).
  right. vm_compute. reflexivity.
Defined.

(** X5: the recursion of [handleMessage] is entered at most once per turn:
    with any fuel of two or more the handler gives the same outcome, and
    that outcome is settled (returned or thrown), whatever the session,
    the input and the upstream answers. *)
Theorem handleMessage_recursion_bounded P w text st n :
  (2 <= n)%nat ->
  handleMessageF P n w text st = handleMessage P w text st
  /\ signal (handleMessageF P n w text st) <> Pending.
Proof.
  intros Hn. destruct n as [|[|n]]; [lia..|].
  rewrite handleMessageF_fuel. split; [done|]. apply handleMessage_settles.
Qed.

Lemma handleMessage_recursion_bounded_witness :
  let w := Sample.world 0 200 in
  handleMessageF Sample.plain 3 w "sushi" Sample.listed
  = handleMessage Sample.plain w "sushi" Sample.listed
  /\ signal (handleMessageF Sample.plain 3 w "sushi" Sample.listed) <> Pending.
Proof.
  apply (handleMessage_recursion_bounded Sample.plain (Sample.world 0 200) "sushi"
           Sample.listed 3).
  lia.
Defined.

(** ** Numbers typed by the user *)

Lemma numeral_unsignedInt s k : numeral s = Some k -> JS.unsignedInt s = Some k.
Proof.
  unfold numeral, JS.unsignedInt. destruct s as [|c r]; [done|]. cbn.
  destruct (JS.digitVal c); [|done]. by destruct (allDigits r).
Qed.

Lemma digit_not_space c d : JS.digitVal c = Some d -> JS.isSpace c = false.
Proof. destruct c as [[] [] [] [] [] [] [] []]; by vm_compute. Qed.

Lemma parseInt_unsigned c r :
  c <> "-"%char -> c <> "+"%char -> JS.isSpace c = false ->
  JS.parseInt (String c r) = JS.unsignedInt (String c r).
Proof.
  intros Hm Hp Hs. unfold JS.parseInt. cbn [JS.trimStart]. rewrite Hs.
  destruct c as [[] [] [] [] [] [] [] []]; done.
Qed.

Lemma integerText_unsigned c r :
  c <> "-"%char -> c <> "+"%char -> integerText (String c r) = numeral (String c r).
Proof.
  intros Hm Hp. unfold integerText.
  destruct c as [[] [] [] [] [] [] [] []]; done.
Qed.

Lemma integerText_parseInt s k : integerText s = Some k -> JS.parseInt s = Some k.
Proof.
  destruct s as [|c r]; [done|].
  destruct (decide (c = "-"%char)) as [->|Hm].
  { change (Z.opp <$> numeral r = Some k -> Z.opp <$> JS.unsignedInt r = Some k).
    destruct (numeral r) as [k'|] eqn:E; [|done].
    by rewrite (numeral_unsignedInt _ _ E). }
  destruct (decide (c = "+"%char)) as [->|Hp].
  { change (numeral r = Some k -> JS.unsignedInt r = Some k).
    apply numeral_unsignedInt. }
  rewrite integerText_unsigned by done. intros H.
  rewrite parseInt_unsigned; [by apply numeral_unsignedInt|done..|].
  unfold numeral in H. cbn in H.
  destruct (JS.digitVal c) eqn:Hd; [|done]. by eapply digit_not_space.
Qed.

(** ** What each step does with its input *)

Lemma not_commands lower (cmds : list string) :
  lower ∉ cmds -> Forall (fun c => bool_decide (lower = c) = false) cmds.
Proof.
  intros H. apply Forall_forall. intros c Hc.
  apply bool_decide_eq_false_2. intros ->. by apply H.
Qed.

Lemma integerText_not_word lower k w :
  integerText lower = Some k -> integerText w = None -> bool_decide (lower = w) = false.
Proof. intros H Hw. apply bool_decide_eq_false_2. intros ->. congruence. Qed.

Lemma validPick_in_range num len k :
  num = Some k -> 1 <= k <= Z.of_nat len ->
  validPick num len = Some (Z.to_nat (k - 1)).
Proof.
  intros -> Hk. unfold validPick.
  assert ((k <? 1) = false) as -> by lia.
  assert ((Z.of_nat len <? k) = false) as -> by lia. done.
Qed.

(** X6: in venue_list, an input that is the integer numeral k with
    1 <= k <= len(venues) asks the availability of venues[k-1], for the
    day and party size of the stored search and for its coordinates, each
    replaced by the default one (40.7128, -74.006) when it is zero; the
    turn makes no other upstream call, whether or not that call succeeds. *)
Theorem numeral_asks_availability P w text st s vs k :
  step st = venue_list ->
  search st = Some s ->
  venues st = Some vs ->
  integerText (JS.trim (JS.toLowerCase text)) = Some k ->
  1 <= k <= Z.of_nat (length vs) ->
  exists venue,
    vs !! Z.to_nat (k - 1) = Some venue
    /\ calls (handleMessage P w text st)
       = [CallAvailability (venue_id venue) (day s) (party_size s)
            (orElse (lat s) (latitude DEFAULT_GEO))
            (orElse (lng s) (longitude DEFAULT_GEO))].
Proof.
  intros Hstep Hs Hvs Hnum Hk.
  destruct (vs !! Z.to_nat (k - 1)) as [venue|] eqn:Hvenue.
  2:{ apply lookup_ge_None in Hvenue. lia. }
  exists venue. split; [done|].
  rewrite handleMessage_unfold. cbv zeta.
  unfold isResetCommand.
  rewrite !(integerText_not_word _ k) by done. cbn [orb]. rewrite Hstep.
  unfold stepVenueList, apiAvailability.
  rewrite (integerText_not_word _ k) by done. run.
  rewrite Hvs. cbn [default].
  rewrite (validPick_in_range _ _ k) by (by apply integerText_parseInt || done).
  cbn [mbind option_bind]. rewrite Hvenue, Hs. branches; done.
Qed.

Lemma numeral_asks_availability_witness :
  exists venue,
    [toVenue (Sample.hit "Oxomoco" "New York");
     toVenue (Sample.hit "Los Tacos" "New York")] !! Z.to_nat (2 - 1) = Some venue
    /\ calls (handleMessage Sample.plain (Sample.world 0 200) " 2" Sample.listed)
       = [CallAvailability (venue_id venue) (day Sample.tacos) (party_size Sample.tacos)
            (latitude DEFAULT_GEO) (longitude DEFAULT_GEO)].
Proof.
  apply (numeral_asks_availability Sample.plain (Sample.world 0 200) " 2" Sample.listed
           Sample.tacos
           [toVenue (Sample.hit "Oxomoco" "New York");
            toVenue (Sample.hit "Los Tacos" "New York")] 2).
  - vm_compute. reflexivity.
  - vm_compute. reflexivity.
  - vm_compute. reflexivity.
  - vm_compute. reflexivity.
  - simpl. lia.
Defined.

Lemma confirms_dispatch' lower :
  confirms lower ->
  isResetCommand lower = false /\ isDecline lower = false /\ isConfirm lower = true.
Proof. intros [->|[->| ->]]; vm_compute; auto. Qed.

(** X7: from a session in confirm whose hold is still live, a confirming
    word with the commit call answered by a 2xx status and a JSON body
    returns the success reply for the picked venue and slot, makes that one
    call with the stored token, and leaves the session empty and idle. *)
Theorem booking_commits_and_resets P w text st s pv ps tok status body result :
  step st = confirm ->
  confirms (JS.trim (JS.toLowerCase text)) ->
  search st = Some s ->
  pickedVenue st = Some pv ->
  pickedSlot st = Some ps ->
  bookToken st = Some tok ->
  holdExpired w st = false ->
  resy_book w tok = Response status body (Some result) ->
  ok status = true ->
  handleMessage P w text st
  = {| signal := Returned (fmtSuccess P pv ps (day s) (party_size s) result);
       final := idleState;
       calls := [CallBook tok] |}.
Proof.
  intros Hstep Hlower Hs Hpv Hps Htok Hlive Hbook Hok.
  apply confirms_dispatch' in Hlower as (Hr & Hd & Hc).
  rewrite handleMessage_unfold. cbv zeta. rewrite Hr, Hstep.
  unfold stepConfirm, apiBook, tryCatch. run.
  rewrite Hd, Hc, Hlive, Hpv, Hps, Htok, Hs. run.
  rewrite Hbook.
  assert ((status =? 402) = false) as ->.
  { unfold ok in Hok. apply andb_true_iff in Hok as [H1 H2]. lia. }
  rewrite Hok. cbn [negb]. run. done.
Qed.

Lemma booking_commits_and_resets_witness :
  handleMessage Sample.plain (Sample.world 0 200) "yes" Sample.held
  = {| signal := Returned
         (fmtSuccess Sample.plain (toVenue (Sample.hit "Oxomoco" "New York"))
            (toSlot (Sample.rawSlot "17:00:00")) (day Sample.tacos)
            (party_size Sample.tacos) {| resy_token := Some "r-1" |});
       final := idleState;
       calls := [CallBook "hold-1"] |}.
Proof.
  apply (booking_commits_and_resets Sample.plain (Sample.world 0 200) "yes" Sample.held
           Sample.tacos (toVenue (Sample.hit "Oxomoco" "New York"))
           (toSlot (Sample.rawSlot "17:00:00")) "hold-1" 200 ""
           {| resy_token := Some "r-1" |}).
  - vm_compute. reflexivity.
  - left. vm_compute. reflexivity.
  - vm_compute. reflexivity.
  - vm_compute. reflexivity.
  - vm_compute. reflexivity.
  - vm_compute. reflexivity.
  - vm_compute. reflexivity.
  - vm_compute. reflexivity.
  - vm_compute. reflexivity.
Defined.

(** X8: in the same situation a commit call answered by a status that is
    neither 2xx nor 402 throws "Booking failed (status): body" to the
    caller and leaves the session exactly as it was, hold included: the
    handler does not retry and does not drop the confirmation. *)
Theorem booking_failure_keeps_hold P w text st pv ps tok status body json :
  step st = confirm ->
  confirms (JS.trim (JS.toLowerCase text)) ->
  pickedVenue st = Some pv ->
  pickedSlot st = Some ps ->
  bookToken st = Some tok ->
  holdExpired w st = false ->
  resy_book w tok = Response status body json ->
  ok status = false ->
  status <> 402 ->
  handleMessage P w text st
  = {| signal := Thrown (Error ("Booking failed (" +:+ JS.showZ status +:+ "): " +:+ body));
       final := st;
       calls := [CallBook tok] |}.
Proof.
  intros Hstep Hlower Hpv Hps Htok Hlive Hbook Hok H402.
  apply confirms_dispatch' in Hlower as (Hr & Hd & Hc).
  rewrite handleMessage_unfold. cbv zeta. rewrite Hr, Hstep.
  unfold stepConfirm, apiBook, tryCatch. run.
  rewrite Hd, Hc, Hlive, Hpv, Hps, Htok. run.
  rewrite Hbook.
  assert ((status =? 402) = false) as -> by lia.
  rewrite Hok. cbn [negb]. run. done.
Qed.

Lemma booking_failure_keeps_hold_witness :
  handleMessage Sample.plain (Sample.world 0 500) "book" Sample.held
  = {| signal := Thrown (Error ("Booking failed (" +:+ JS.showZ 500 +:+ "): " +:+ ""));
       final := Sample.held;
       calls := [CallBook "hold-1"] |}.
Proof.
  apply (booking_failure_keeps_hold Sample.plain (Sample.world 0 500) "book" Sample.held
           (toVenue (Sample.hit "Oxomoco" "New York"))
           (toSlot (Sample.rawSlot "17:00:00")) "hold-1" 500 ""
           (Some {| resy_token := Some "r-1" |})).
  - vm_compute. reflexivity.
  - right. right. vm_compute. reflexivity.
  - vm_compute. reflexivity.
  - vm_compute. reflexivity.
  - vm_compute. reflexivity.
  - vm_compute. reflexivity.
  - vm_compute. reflexivity.
  - vm_compute. reflexivity.
  - lia.
Defined.

(** X9: "no" or "back" in confirm, from a session that has its search,
    picked venue and slots, returns to slot_list with the slot list shown
    again: [pickedSlot], [bookToken] and [bookExpires] are cleared, the
    other fields are kept, and nothing is called upstream (the hold is
    dropped locally, not released). *)
Theorem decline_returns_to_slots P w text st s pv sl :
  step st = confirm ->
  (let lower := JS.trim (JS.toLowerCase text) in lower = "no" \/ lower = "back") ->
  search st = Some s ->
  pickedVenue st = Some pv ->
  slots st = Some sl ->
  handleMessage P w text st
  = {| signal := Returned (msgDeclined (fmtSlotList P pv sl (day s) (party_size s)));
       final := {| step := slot_list; search := search st; venues := venues st;
                   pickedVenue := pickedVenue st; slots := slots st;
                   pickedSlot := None; bookToken := None; bookExpires := None |};
       calls := [] |}.
Proof.
  intros Hstep Hlower Hs Hpv Hsl. cbv zeta in Hlower.
  assert (isResetCommand (JS.trim (JS.toLowerCase text)) = false
          /\ isDecline (JS.trim (JS.toLowerCase text)) = true) as [Hr Hd].
  { destruct Hlower as [-> | ->]; by vm_compute. }
  rewrite handleMessage_unfold. cbv zeta. rewrite Hr, Hstep.
  unfold stepConfirm, currentSlotList. run. rewrite Hd. run.
  rewrite Hs, Hpv, Hsl. run. done.
Qed.

Lemma decline_returns_to_slots_witness :
  let st := Sample.held in
  handleMessage Sample.plain (Sample.world 0 200) "Back" st
  = {| signal := Returned
         (msgDeclined
            (fmtSlotList Sample.plain (toVenue (Sample.hit "Oxomoco" "New York"))
               (parseSlots Sample.availability 7) (day Sample.tacos)
               (party_size Sample.tacos)));
       final := {| step := slot_list; search := search st; venues := venues st;
                   pickedVenue := pickedVenue st; slots := slots st;
                   pickedSlot := None; bookToken := None; bookExpires := None |};
       calls := [] |}.
Proof.
  apply (decline_returns_to_slots Sample.plain (Sample.world 0 200) "Back" Sample.held
           Sample.tacos (toVenue (Sample.hit "Oxomoco" "New York"))
           (parseSlots Sample.availability 7)).
  - vm_compute. reflexivity.
  - right. vm_compute. reflexivity.
  - vm_compute. reflexivity.
  - vm_compute. reflexivity.
  - vm_compute. reflexivity.
Defined.

(** X10: in confirm, an input that is none of "reset", "start over", "no",
    "back", "yes", "confirm", "book" gets the yes/no prompt: the session,
    hold included, is untouched and nothing is called upstream. *)
Theorem confirm_prompts_on_other_input P w text st :
  step st = confirm ->
  JS.trim (JS.toLowerCase text)
    ∉ ["reset"; "start over"; "no"; "back"; "yes"; "confirm"; "book"] ->
  handleMessage P w text st
  = {| signal := Returned msgConfirmPrompt; final := st; calls := [] |}.
Proof.
  intros Hstep Hother. apply not_commands in Hother.
  repeat (apply Forall_cons in Hother as [? Hother]).
  rewrite handleMessage_unfold. cbv zeta.
  unfold isResetCommand. rewrite Hstep.
  unfold stepConfirm, isDecline, isConfirm. run.
  repeat match goal with H : bool_decide _ = false |- _ => rewrite H; clear H end.
  cbn [orb]. run. done.
Qed.

Lemma confirm_prompts_on_other_input_witness :
  handleMessage Sample.plain (Sample.world 0 200) "maybe" Sample.held
  = {| signal := Returned msgConfirmPrompt; final := Sample.held; calls := [] |}.
Proof.
  apply (confirm_prompts_on_other_input Sample.plain (Sample.world 0 200) "maybe"
           Sample.held).
  - vm_compute. reflexivity.
  - apply (bool_decide_unpack _). vm_compute. exact I.
Defined.

(** X11: in slot_list, an input that is not "reset", "start over" or "back"
    and whose number as [parseInt] reads it is missing or outside
    1..min(len(slots), 10) gets the pick prompt for that range: the session
    is untouched and nothing is called upstream. With more than ten slots
    stored, 11 and above are refused. *)
Theorem slot_list_prompts_on_bad_pick P w text st :
  step st = slot_list ->
  let lower := JS.trim (JS.toLowerCase text) in
  let maxSlots := Nat.min (length (default [] (slots st))) 10 in
  lower ∉ ["reset"; "start over"; "back"] ->
  (forall k, JS.parseInt lower = Some k -> k < 1 \/ Z.of_nat maxSlots < k) ->
  handleMessage P w text st
  = {| signal := Returned (msgPick maxSlots); final := st; calls := [] |}.
Proof.
  intros Hstep lower maxSlots Hother Hnum. apply not_commands in Hother.
  repeat (apply Forall_cons in Hother as [? Hother]).
  rewrite handleMessage_unfold. cbv zeta. fold lower.
  unfold isResetCommand. rewrite Hstep.
  unfold stepSlotList. run.
  repeat match goal with H : bool_decide _ = false |- _ => rewrite H; clear H end.
  cbn [orb]. fold maxSlots. rewrite validPick_none by done. run. done.
Qed.

Lemma slot_list_prompts_on_bad_pick_witness :
  handleMessage Sample.plain (Sample.world 0 200) "11" Sample.picked
  = {| signal := Returned (msgPick 10); final := Sample.picked; calls := [] |}.
Proof.
  apply (slot_list_prompts_on_bad_pick Sample.plain (Sample.world 0 200) "11"
           Sample.picked).
  - vm_compute. reflexivity.
  - apply (bool_decide_unpack _). vm_compute. exact I.
  - intros k Hk. vm_compute in Hk. injection Hk as <-. right. vm_compute. reflexivity.
Defined.

(** The start of a valid pick in slot_list. *)
Ltac pick_slot Hstep Hpick Hsl Hslot :=
  let Hother := fresh in
  let Hvalid := fresh in
  destruct Hpick as [Hother Hvalid]; apply not_commands in Hother;
  repeat (apply Forall_cons in Hother as [? Hother]);
  rewrite handleMessage_unfold; cbv zeta;
  unfold isResetCommand; rewrite Hstep;
  unfold stepSlotList, apiDetails; rewrite bind_get;
  repeat match goal with H : bool_decide _ = false |- _ => rewrite H; clear H end;
  cbn [orb]; rewrite Hsl, default_some, Hvalid;
  cbn [mbind option_bind]; rewrite Hslot.

(** X12: in slot_list, a valid pick whose hold request comes back without a
    booking token (absent or empty: the slot was taken meanwhile) returns
    the "just got taken" reply after that one upstream call, and leaves
    the session exactly as it was, so another number can be picked. *)
Theorem taken_slot_keeps_session P w text st s pv sl i slot status body details :
  step st = slot_list ->
  (let lower := JS.trim (JS.toLowerCase text) in
   (lower ∉ ["reset"; "start over"; "back"])
   /\ validPick (JS.parseInt lower) (Nat.min (length sl) 10) = Some i) ->
  slots st = Some sl ->
  sl !! i = Some slot ->
  pickedVenue st = Some pv ->
  search st = Some s ->
  resy_details w (slot_token slot) (day s) (party_size s)
  = Response status body (Some details) ->
  ok status = true ->
  book_token_value details = None \/ book_token_value details = Some "" ->
  handleMessage P w text st
  = {| signal := Returned msgTaken; final := st;
       calls := [CallDetails (slot_token slot) (day s) (party_size s)] |}.
Proof.
  intros Hstep Hpick Hsl Hslot Hpv Hs Hdetails Hok Htoken.
  pick_slot Hstep Hpick Hsl Hslot. rewrite Hpv, Hs. run. rewrite Hdetails, Hok. cbn [negb]. run.
  destruct Htoken as [-> | ->]; cbn [JS.isEmpty]; run; done.
Qed.

Lemma taken_slot_keeps_session_witness :
  handleMessage Sample.plain Sample.soldOut "1" Sample.picked
  = {| signal := Returned msgTaken; final := Sample.picked;
       calls := [CallDetails (slot_token (toSlot (Sample.rawSlot "17:00:00")))
                   (day Sample.tacos) (party_size Sample.tacos)] |}.
Proof.
  apply (taken_slot_keeps_session Sample.plain Sample.soldOut "1" Sample.picked
           Sample.tacos (toVenue (Sample.hit "Oxomoco" "New York"))
           (parseSlots Sample.availability 7) 0%nat
           (toSlot (Sample.rawSlot "17:00:00")) 200 ""
           {| book_token_value := None; book_token_date_expires := None;
              payment := ""; cancellation := "" |}).
  - vm_compute. reflexivity.
  - split; [apply (bool_decide_unpack _) | ]; vm_compute; [exact I | reflexivity].
  - vm_compute. reflexivity.
  - vm_compute. reflexivity.
  - vm_compute. reflexivity.
  - vm_compute. reflexivity.
  - vm_compute. reflexivity.
  - vm_compute. reflexivity.
  - left. reflexivity.
Defined.

(** X13: in slot_list, a valid pick whose hold request returns a non-empty
    booking token moves the session to confirm with [pickedSlot] the
    chosen slot and [bookToken] that token; [bookExpires] is whatever this
    response carries (the parsed expiry, or nothing), so an expiry left
    over from an earlier hold never survives into a new confirmation. The
    turn then ends as [fmtConfirm] does: it returns its text, or throws its
    error with the session already in confirm. *)
Theorem hold_enters_confirm P w text st s pv sl i slot status body details token :
  step st = slot_list ->
  (let lower := JS.trim (JS.toLowerCase text) in
   (lower ∉ ["reset"; "start over"; "back"])
   /\ validPick (JS.parseInt lower) (Nat.min (length sl) 10) = Some i) ->
  slots st = Some sl ->
  sl !! i = Some slot ->
  pickedVenue st = Some pv ->
  search st = Some s ->
  resy_details w (slot_token slot) (day s) (party_size s)
  = Response status body (Some details) ->
  ok status = true ->
  book_token_value details = Some token ->
  token <> "" ->
  handleMessage P w text st
  = {| signal := outcomeOf (fmtConfirm P pv slot (day s) (party_size s)
                              (payment details) (cancellation details));
       final := {| step := confirm; search := search st; venues := venues st;
                   pickedVenue := pickedVenue st; slots := slots st;
                   pickedSlot := Some slot; bookToken := Some token;
                   bookExpires := expiresOf (newDate P) details |};
       calls := [CallDetails (slot_token slot) (day s) (party_size s)] |}.
Proof.
  intros Hstep Hpick Hsl Hslot Hpv Hs Hdetails Hok Htoken Hne.
  pick_slot Hstep Hpick Hsl Hslot. rewrite Hpv, Hs. run. rewrite Hdetails, Hok. cbn [negb]. run.
  rewrite Htoken. destruct token; [done|]. cbn [JS.isEmpty]. run.
  rewrite rendered_outcome. run. by rewrite ?Hs, ?Hpv, ?Hsl.
Qed.

Lemma hold_enters_confirm_witness :
  let st := Sample.picked in
  let slot := toSlot (Sample.rawSlot "17:00:00") in
  let details :=
    {| book_token_value := Some "hold-1"; book_token_date_expires := Some "1000";
       payment := ""; cancellation := "" |} in
  handleMessage Sample.plain (Sample.world 0 200) "1" st
  = {| signal := Returned "confirm Oxomoco 17:00";
       final := {| step := confirm; search := search st; venues := venues st;
                   pickedVenue := pickedVenue st; slots := slots st;
                   pickedSlot := Some slot; bookToken := Some "hold-1";
                   bookExpires := expiresOf (newDate Sample.plain) details |};
       calls := [CallDetails (slot_token slot) (day Sample.tacos)
                   (party_size Sample.tacos)] |}.
Proof.
  apply (hold_enters_confirm Sample.plain (Sample.world 0 200) "1" Sample.picked
           Sample.tacos (toVenue (Sample.hit "Oxomoco" "New York"))
           (parseSlots Sample.availability 7) 0%nat
           (toSlot (Sample.rawSlot "17:00:00")) 200 ""
           {| book_token_value := Some "hold-1"; book_token_date_expires := Some "1000";
              payment := ""; cancellation := "" |} "hold-1").
  - vm_compute. reflexivity.
  - split; [apply (bool_decide_unpack _) | ]; vm_compute; [exact I | reflexivity].
  - vm_compute. reflexivity.
  - vm_compute. reflexivity.
  - vm_compute. reflexivity.
  - vm_compute. reflexivity.
  - vm_compute. reflexivity.
  - vm_compute. reflexivity.
  - reflexivity.
  - discriminate.
Defined.

(** X14: "back" in slot_list, from a session that has its search and venue
    list, goes back to the venue list: the step is venue_list, [pickedVenue]
    and [slots] are cleared, every other field is kept (a [bookExpires]
    left by an expired hold included), and nothing is called upstream. The
    turn ends as [fmtVenueList] does on the stored venues and search: it
    returns its text, or throws its error with the session already back in
    venue_list. *)
Theorem back_returns_to_venues P w text st s vs :
  step st = slot_list ->
  JS.trim (JS.toLowerCase text) = "back" ->
  search st = Some s ->
  venues st = Some vs ->
  handleMessage P w text st
  = {| signal := outcomeOf (fmtVenueList P vs s);
       final := {| step := venue_list; search := search st; venues := venues st;
                   pickedVenue := None; slots := None; pickedSlot := pickedSlot st;
                   bookToken := bookToken st; bookExpires := bookExpires st |};
       calls := [] |}.
Proof.
  intros Hstep Hlower Hs Hvs.
  rewrite handleMessage_unfold. cbv zeta. rewrite Hlower, Hstep.
  change (isResetCommand "back") with false. cbv iota.
  unfold stepSlotList. run. rewrite bool_decide_eq_true_2 by done. run.
  rewrite Hvs, Hs. run. rewrite rendered_outcome. done.
Qed.

Lemma back_returns_to_venues_witness :
  let st := Sample.picked in
  let vs := [toVenue (Sample.hit "Oxomoco" "New York");
             toVenue (Sample.hit "Los Tacos" "New York")] in
  handleMessage Sample.plain (Sample.world 0 200) " BACK" st
  = {| signal := Returned "venues for tacos";
       final := {| step := venue_list; search := search st; venues := venues st;
                   pickedVenue := None; slots := None; pickedSlot := pickedSlot st;
                   bookToken := bookToken st; bookExpires := bookExpires st |};
       calls := [] |}.
Proof.
  apply (back_returns_to_venues Sample.plain (Sample.world 0 200) " BACK" Sample.picked
           Sample.tacos
           [toVenue (Sample.hit "Oxomoco" "New York");
            toVenue (Sample.hit "Los Tacos" "New York")]).
  - vm_compute. reflexivity.
  - vm_compute. reflexivity.
  - vm_compute. reflexivity.
  - vm_compute. reflexivity.
Defined.

(** ** Search results and the session invariant *)

Lemma parseVenues_length data location : (length (parseVenues data location) <= 5)%nat.
Proof.
  unfold parseVenues. cbv zeta.
  destruct (postFilter_cases location (map toVenue (default [] data)))
    as [[_ ->]|[_ ->]]; rewrite length_take; lia.
Qed.

Lemma parseVenues_nil data location :
  parseVenues data location = [] <-> default [] data = [].
Proof.
  unfold parseVenues. cbv zeta.
  destruct (postFilter_cases location (map toVenue (default [] data)))
    as [[Hne ->]|[Hnil ->]].
  - split.
    + intros H. destruct (List.filter _ _); [done | discriminate H].
    + intros H. rewrite H in Hne. done.
  - destruct (default [] data); [done|]. split; discriminate.
Qed.

(** X15: from idle, the search request carries the extracted query and
    location joined by a space and the extracted coordinates, each replaced
    by the default one (40.7128, -74.006) when it is zero. When the
    extraction returns search parameters and that request succeeds, the
    turn makes exactly those two upstream calls and the session enters
    venue_list if and only if the response has at least one hit; it then
    stores the extracted parameters and the parsed venues (between one and
    five) and nothing else, and the turn ends as [fmtVenueList] does on
    them (its text, or its error with the session already in venue_list).
    With no hit the session is left as it was and the reply says so. *)
Theorem idle_search_outcome P w text st s status body data :
  step st = idle ->
  JS.trim (JS.toLowerCase text) ∉ ["reset"; "start over"] ->
  openai_chat w text = ToolCall (Some s) ->
  let fullQuery := query s +:+ " " +:+ location s in
  let la := orElse (lat s) (latitude DEFAULT_GEO) in
  let lo := orElse (lng s) (longitude DEFAULT_GEO) in
  resy_search w fullQuery la lo = Response status body (Some data) ->
  ok status = true ->
  let o := handleMessage P w text st in
  let found := parseVenues data (location s) in
  calls o = [CallExtract text; CallSearch fullQuery la lo]
  /\ (default [] data = [] ->
      signal o = Returned (msgNoResults s) /\ final o = st)
  /\ (default [] data <> [] ->
      signal o = outcomeOf (fmtVenueList P found s)
      /\ final o = {| step := venue_list; search := Some s; venues := Some found;
                      pickedVenue := None; slots := None; pickedSlot := None;
                      bookToken := None; bookExpires := None |}
      /\ found <> [] /\ (length found <= 5)%nat).
Proof.
  intros Hstep Hother Hchat fullQuery la lo Hsearch Hok o found.
  apply not_commands in Hother.
  repeat (apply Forall_cons in Hother as [? Hother]).
  unfold o. rewrite handleMessage_unfold. cbv zeta.
  unfold isResetCommand.
  repeat match goal with H : bool_decide _ = false |- _ => rewrite H; clear H end.
  cbn [orb]. rewrite Hstep.
  unfold stepIdle, extractSearch, apiSearch. run. rewrite Hchat. run.
  cbn [latitude longitude]. fold fullQuery la lo.
  rewrite Hsearch, Hok. cbn [negb]. run. fold found.
  pose proof (parseVenues_nil data (location s)) as Hnil. fold found in Hnil.
  destruct (length found =? 0)%nat eqn:Hlen; run; rewrite ?rendered_outcome; run.
  - apply Nat.eqb_eq, length_zero_iff_nil in Hlen.
    split; [done|]. split; [done|]. intros Hdata. by apply Hnil in Hlen.
  - apply Nat.eqb_neq in Hlen.
    split; [done|]. split.
    + intros Hdata. apply Hnil in Hdata. rewrite Hdata in Hlen. done.
    + intros _. split_and!; try done.
      * intros Hf. by rewrite Hf in Hlen.
      * apply parseVenues_length.
Qed.

Lemma idle_search_outcome_witness :
  let s := Sample.asking "tacos" in
  let data := Some [Sample.hit "Oxomoco" "New York"; Sample.hit "Los Tacos" "New York";
                    Sample.hit "Taqueria" "Chicago"] in
  let o := handleMessage Sample.plain (Sample.world 0 200) "tacos" idleState in
  let found := parseVenues data (location s) in
  calls o = [CallExtract "tacos";
             CallSearch "tacos New York" (latitude DEFAULT_GEO) (longitude DEFAULT_GEO)]
  /\ (default [] data = [] ->
      signal o = Returned (msgNoResults s) /\ final o = idleState)
  /\ (default [] data <> [] ->
      signal o = Returned "venues for tacos"
      /\ final o = {| step := venue_list; search := Some s; venues := Some found;
                      pickedVenue := None; slots := None; pickedSlot := None;
                      bookToken := None; bookExpires := None |}
      /\ found <> [] /\ (length found <= 5)%nat).
Proof.
  apply (idle_search_outcome Sample.plain (Sample.world 0 200) "tacos" idleState
           (Sample.asking "tacos") 200 ""
           (Some [Sample.hit "Oxomoco" "New York"; Sample.hit "Los Tacos" "New York";
                  Sample.hit "Taqueria" "Chicago"])).
  - reflexivity.
  - apply (bool_decide_unpack _). vm_compute. exact I.
  - vm_compute. reflexivity.
  - vm_compute. reflexivity.
  - vm_compute. reflexivity.
Defined.

Lemma validPick_lt num len i : validPick num len = Some i -> (i < len)%nat.
Proof.
  intros H. apply validPick_some in H as (k & _ & Hk & ->). lia.
Qed.

Ltac bounded_leaf :=
  unfold bounded; cbn [venues pickedVenue slots pickedSlot bookToken];
  repeat match goal with
         | H : validPick _ _ = Some _ |- _ => apply validPick_lt in H
         | H : (_ =? 0)%nat = false |- _ => apply Nat.eqb_neq in H
         | H : JS.isEmpty ?t = false |- _ => destruct t; [discriminate H|clear H]
         | H : (Some _ ≫= _) = Some _ |- _ => cbn [mbind option_bind] in H
         end;
  split_and!; intros; simplify_eq; try done;
  first
    [ split; [intros Hnil; rewrite Hnil in *; cbn in *; congruence
             |apply parseVenues_length]
    | by eapply list_elem_of_lookup_2
    | eexists; split; [|done]; lia
    | eauto ].

Lemma handleMessage_bounded P w text st :
  wellFormed st -> bounded st -> bounded (final (handleMessage P w text st)).
Proof.
  intros Hwf Hb. rewrite handleMessage_unfold. cbv zeta.
  destruct (isResetCommand _); [done|].
  open_session st Hwf; destruct Hb as (Hv & Hpv & Hps & Htok); cbn in *.
  - unfold stepIdle, extractSearch, apiSearch. branches; try done; bounded_leaf.
  - unfold stepVenueList, stepIdle, extractSearch, apiSearch, apiAvailability.
    branches; try done; bounded_leaf.
  - unfold stepSlotList, apiDetails. branches; try done; bounded_leaf.
  - unfold stepConfirm, currentSlotList, apiBook, tryCatch.
    branches; try done; bounded_leaf.
Qed.

(** X16: every session the handler can reach from the initial one is well
    formed (each step has the fields it relies on and none of the later
    ones) and bounded: [venues] holds between one and five venues,
    [pickedVenue] is one of them, [pickedSlot] is one of the first ten
    stored slots, and [bookToken] is never the empty string. *)
Theorem reachable_session_bounded P st :
  reachable P st -> wellFormed st /\ bounded st.
Proof.
  induction 1 as [|w text st _ [IHwf IHb]].
  - split; [done|]. unfold bounded. cbn. split_and!; done.
  - split; [by apply handleMessage_good | by apply handleMessage_bounded].
Qed.

Lemma reachable_session_bounded_witness :
  wellFormed Sample.held /\ bounded Sample.held.
Proof.
  apply (reachable_session_bounded Sample.plain Sample.held).
  exact held_reachable.
Defined.

(** * Further properties of the parsers and the API calls *)

Lemma find_first {A} (p : A -> bool) pre e post :
  Forall (fun x => p x = false) pre -> p e = true ->
  List.find p (pre ++ e :: post)%list = Some e.
Proof.
  induction 1 as [|x pre Hx _ IH]; intros He; cbn; [by rewrite He|].
  rewrite Hx. by apply IH.
Qed.

Lemma find_nothing {A} (p : A -> bool) l :
  Forall (fun x => p x = false) l -> List.find p l = None.
Proof. induction 1 as [|x l Hx _ IH]; cbn; [done|]. by rewrite Hx. Qed.

(** X17: [parseSlots] takes its slots from one entry of the availability
    response: the first entry whose venue id is the requested one; when no
    entry has that id, the first entry of the response, whatever venue it
    is for; and it returns no slot only when that entry has none or the
    response has no entry. The slots of the chosen entry are all kept, in
    order. *)
Theorem parseSlots_entry_choice (data : AvailabilityResponse) (venueId : Z) :
  let entries := default [] data in
  (entries = [] -> parseSlots data venueId = [])
  /\ (forall pre e post,
        entries = (pre ++ e :: post)%list ->
        Forall (fun x => avail_venue_id_resy x <> Some venueId) pre ->
        avail_venue_id_resy e = Some venueId ->
        parseSlots data venueId = map toSlot (default [] (avail_slots e)))
  /\ (forall e rest,
        entries = e :: rest ->
        Forall (fun x => avail_venue_id_resy x <> Some venueId) (e :: rest) ->
        parseSlots data venueId = map toSlot (default [] (avail_slots e))).
Proof.
  intros entries. unfold parseSlots. cbv zeta. fold entries. split_and!.
  - intros ->. done.
  - intros pre e post -> Hpre He.
    rewrite (find_first _ pre e post); [done| |by apply bool_decide_eq_true_2].
    eapply Forall_impl; [exact Hpre|]. intros x Hx. by apply bool_decide_eq_false_2.
  - intros e rest -> Hall.
    rewrite find_nothing; [done|].
    eapply Forall_impl; [exact Hall|]. intros x Hx. by apply bool_decide_eq_false_2.
Qed.

Lemma slice0_length n s : (String.length (JS.slice0 n s) <= n)%nat.
Proof.
  revert s. induction n as [|n IH]; intros [|c r]; cbn; try lia.
  specialize (IH r). lia.
Qed.

Lemma clock_length d : (String.length (clock d) <= 5)%nat.
Proof.
  unfold clock. destruct d as [t|]; cbn [mbind option_bind]; [|cbn; lia].
  destruct (JS.splitSpace t !! 1%nat); cbn [fmap option_fmap option_map default];
    [apply slice0_length | cbn; lia].
Qed.

(** X18: the start and end of every slot that [parseSlots] returns are at
    most five characters long, whatever the upstream sent as datetimes
    (the "HH:MM" clip, or the "??:??" placeholder). *)
Theorem parsed_slot_times_clipped (data : AvailabilityResponse) (venueId : Z) (sl : Slot) :
  sl ∈ parseSlots data venueId ->
  (String.length (slot_start sl) <= 5)%nat /\ (String.length (slot_end sl) <= 5)%nat.
Proof.
  unfold parseSlots. cbv zeta.
  destruct (match List.find _ _ with Some v => Some v | None => _ end) as [v|];
    [|by intros ?%elem_of_nil].
  intros (raw & -> & _)%list_elem_of_fmap. cbn. split; apply clock_length.
Qed.

Lemma parsed_slot_times_clipped_witness :
  let sl := toSlot {| date_start := Some "2024-06-02 17:00:00";
                      date_end := Some "tomorrow"; config_type := None;
                      config_token := None |} in
  (String.length (slot_start sl) <= 5)%nat /\ (String.length (slot_end sl) <= 5)%nat.
Proof.
  apply (parsed_slot_times_clipped
           (Some [{| avail_venue_id_resy := Some 7;
                     avail_slots :=
                       Some [{| date_start := Some "2024-06-02 17:00:00";
                                date_end := Some "tomorrow"; config_type := None;
                                config_token := None |}] |}]) 7).
  vm_compute. constructor.
Defined.

Lemma splitSpaceFrom_spaceless acc s :
  spaceless s = true -> JS.splitSpaceFrom acc s = [acc +:+ s].
Proof.
  revert acc. induction s as [|c r IH]; intros acc Hs.
  - cbn [JS.splitSpaceFrom]. by rewrite append_empty.
  - cbn [spaceless] in Hs. apply andb_true_iff in Hs as [Hc Hr].
    apply negb_true_iff in Hc. cbn [JS.splitSpaceFrom]. rewrite Hc.
    by rewrite IH, append_snoc.
Qed.

Lemma splitSpaceFrom_at_space acc d rest :
  spaceless d = true ->
  JS.splitSpaceFrom acc (d +:+ " " +:+ rest)
  = (acc +:+ d) :: JS.splitSpaceFrom "" rest.
Proof.
  revert acc. induction d as [|c r IH]; intros acc Hd.
  - change ("" +:+ " " +:+ rest) with (String " " rest).
    cbn [JS.splitSpaceFrom]. change (Ascii.eqb " " " ") with true. cbv iota.
    by rewrite append_empty.
  - cbn [spaceless] in Hd. apply andb_true_iff in Hd as [Hc Hr].
    apply negb_true_iff in Hc. rewrite append_cons.
    cbn [JS.splitSpaceFrom]. rewrite Hc.
    by rewrite IH, append_snoc.
Qed.

(** X19: for an upstream datetime made of a date and a time separated by
    one space (neither containing a space), the parsed clock is the first
    five characters of the time; a datetime without any space gives the
    placeholder "??:??". *)
Theorem clock_of_datetime (d t : string) :
  spaceless d = true ->
  spaceless t = true ->
  clock (Some (d +:+ " " +:+ t)) = JS.slice0 5 t
  /\ clock (Some d) = "??:??".
Proof.
  intros Hd Ht. unfold clock, JS.splitSpace. cbn [mbind option_bind].
  rewrite splitSpaceFrom_at_space, (splitSpaceFrom_spaceless _ t) by done.
  rewrite (splitSpaceFrom_spaceless _ d) by done. done.
Qed.

Lemma clock_of_datetime_witness :
  clock (Some ("2024-06-02" +:+ " " +:+ "17:30:00")) = JS.slice0 5 "17:30:00"
  /\ clock (Some "2024-06-02") = "??:??".
Proof.
  apply (clock_of_datetime "2024-06-02" "17:30:00").
  - vm_compute. reflexivity.
  - vm_compute. reflexivity.
Defined.

(** X20: a location with no significant word (every word of at most two
    characters, such as "LA" or "NY", or an empty location) filters
    nothing: [parseVenues] returns the first five upstream hits as they
    come. *)
Theorem short_location_keeps_ranking (data : SearchResponse) (location : string) :
  (forall w, w ∈ locWords location -> (String.length w <= 2)%nat) ->
  parseVenues data location = take 5 (map toVenue (default [] data)).
Proof.
  intros Hshort. unfold parseVenues, postFilter. cbv zeta.
  rewrite filter_none; [done|].
  apply Forall_forall. intros v _. unfold isLocal.
  apply not_true_iff_false. intros (w & Hin & Hw)%existsb_exists.
  apply andb_true_iff in Hw as [Hlen _]. apply Nat.ltb_lt in Hlen.
  apply list_elem_of_In, Hshort in Hin. lia.
Qed.

Lemma short_location_keeps_ranking_witness :
  let data := Some [Sample.hit "Oxomoco" "New York"; Sample.hit "Taqueria" "Chicago"] in
  parseVenues data "LA" = take 5 (map toVenue (default [] data)).
Proof.
  apply (short_location_keeps_ranking
           (Some [Sample.hit "Oxomoco" "New York"; Sample.hit "Taqueria" "Chicago"]) "LA").
  intros w Hw. vm_compute in Hw.
  inversion Hw as [|? ? ? Hw']; subst; [simpl; lia | inversion Hw'].
Defined.

(** X21: when the commit endpoint answers (whatever the status), [apiBook]
    logs exactly that one call and leaves the session alone, and it throws
    the error "PAYMENT_REQUIRED", the one the handler's catch recognises,
    if and only if the status is 402. *)
Theorem apiBook_payment_required_iff w tok st status body json :
  resy_book w tok = Response status body json ->
  calls (apiBook w tok st) = [CallBook tok]
  /\ final (apiBook w tok st) = st
  /\ ((exists e, signal (apiBook w tok st) = Thrown e /\ message e = "PAYMENT_REQUIRED")
      <-> status = 402).
Proof.
  intros Hbook. unfold apiBook. run. rewrite Hbook.
  destruct (status =? 402) eqn:H402.
  - run. split_and!; try done. split; [lia|]. intros _. by eexists.
  - destruct (negb (ok status)); run.
    + split_and!; try done. split; [|lia]. intros (e & [= <-] & He). discriminate He.
    + destruct json; run; (split_and!; try done; split; [|lia]).
      * intros (e & He & _). discriminate He.
      * intros (e & [= <-] & He). discriminate He.
Qed.

Lemma apiBook_payment_required_iff_witness :
  let o := apiBook (Sample.world 0 402) "hold-1" Sample.held in
  calls o = [CallBook "hold-1"]
  /\ final o = Sample.held
  /\ ((exists e, signal o = Thrown e /\ message e = "PAYMENT_REQUIRED") <-> 402 = 402).
Proof.
  apply (apiBook_payment_required_iff (Sample.world 0 402) "hold-1" Sample.held 402 ""
           (Some {| resy_token := Some "r-1" |})).
  vm_compute. reflexivity.
Defined.

Lemma stepIdle_expected P w text st :
  expected idle (calls (stepIdle P w text st)) = true.
Proof. unfold stepIdle, extractSearch, apiSearch. branches; done. Qed.

Lemma stepVenueList_expected P w lower again st :
  expected idle (calls (again idleState)) = true ->
  expected venue_list (calls (stepVenueList P w lower again st)) = true.
Proof.
  intros Hagain. unfold stepVenueList, apiAvailability.
  branches; try done.
  all: by destruct (calls (again idleState)) as [|[] [|[] []]].
Qed.

Lemma stepSlotList_expected P w lower st :
  expected slot_list (calls (stepSlotList P w lower st)) = true.
Proof. unfold stepSlotList, apiDetails. branches; done. Qed.

Lemma stepConfirm_expected P w lower st :
  expected confirm (calls (stepConfirm P w lower st)) = true.
Proof. unfold stepConfirm, currentSlotList, apiBook, tryCatch. branches; done. Qed.

(** X22: a turn makes at most one request to the reservation service, and
    it is the one of its step: a search (after one extraction call) from
    idle or from venue_list on a new query, an availability request from
    venue_list, a hold request from slot_list, a commit from confirm; a
    reset, a prompt or a step back calls nothing. *)
Theorem turn_calls_belong_to_step P w text st :
  expected (step st) (calls (handleMessage P w text st)) = true.
Proof.
  rewrite handleMessage_unfold. cbv zeta.
  destruct (isResetCommand _); [by destruct (step st)|].
  destruct (step st) eqn:Hstep.
  - apply stepIdle_expected.
  - apply stepVenueList_expected. simpl. apply stepIdle_expected.
  - apply stepSlotList_expected.
  - apply stepConfirm_expected.
Qed.

(** * Further properties of the watcher *)

Lemma setAdd_has x l : x ∈ setAdd x l.
Proof.
  unfold setAdd. destruct (bool_decide (x ∈ l)) eqn:H.
  - by apply bool_decide_eq_true_1 in H.
  - apply elem_of_app. right. by apply list_elem_of_singleton.
Qed.

Lemma setAdd_keeps x y l : y ∈ l -> y ∈ setAdd x l.
Proof.
  intros Hy. unfold setAdd. destruct (bool_decide (x ∈ l)); [done|].
  apply elem_of_app. by left.
Qed.

Section WatcherRuns.

Context (P : Presentation) (MY_ID : string).

Lemma arrive_accepted_inv g msg t :
  (arrive MY_ID g msg).2 = Accepted t ->
  inScope MY_ID msg = Some t
  /\ processing g = false
  /\ arrive MY_ID g msg
     = ({| state := state g; botSentTexts := botSentTexts g;
           seenGuids := {[guid msg]} ∪ seenGuids g; processing := true |},
        Accepted t).
Proof.
  unfold arrive. destruct (inScope MY_ID msg) as [t'|]; [|done].
  repeat (case_match; try done). cbn. by intros [= ->].
Qed.

Lemma onMessage_records_guid w g msg t :
  inScope MY_ID msg = Some t -> guid msg ∈ seenGuids (onMessage P MY_ID w g msg).1.
Proof.
  intros Hscope. unfold onMessage.
  destruct (arrive MY_ID g msg) as [g1 v] eqn:Harr.
  assert (guid msg ∈ seenGuids g1) as Hseen.
  { revert Harr. unfold arrive. rewrite Hscope.
    destruct (decide (guid msg ∈ seenGuids g)) as [Hin|Hout].
    - rewrite bool_decide_eq_true_2 by done. by intros [= <- <-].
    - rewrite bool_decide_eq_false_2 by done.
      repeat case_match; intros [= <- <-]; cbn; set_solver. }
  destruct v; try done. by rewrite turn_seen.
Qed.

(** X23: an event is handled at most once. After the callback has run on
    an event, running it again on the same event (a redelivery, under any
    upstream behaviour) runs no handler, sends nothing and leaves the
    watcher exactly as it was. *)
Theorem redelivery_is_a_no_op w w' g msg :
  let g1 := (onMessage P MY_ID w g msg).1 in
  onMessage P MY_ID w' g1 msg = (g1, []).
Proof.
  cbv zeta. destruct (inScope MY_ID msg) as [t|] eqn:Hscope.
  - pose proof (onMessage_records_guid w g msg t Hscope) as Hseen.
    unfold onMessage at 1.
    by destruct (arrive_seen_guid MY_ID _ msg Hseen) as [-> | ->].
  - unfold onMessage, arrive. by rewrite Hscope.
Qed.

(** X24: a turn always ends. When an event is accepted, the callback runs
    the handler once on the trimmed text, leaves the session as the
    handler left it and lowers [processing] again, whether the handler
    returned or threw; a returned reply is recorded in [botSentTexts] and
    sent to the chat (or the sender), a thrown error is reported by the
    recorded and sent error reply of its message. *)
Theorem accepted_turn_completes w g msg t :
  (arrive MY_ID g msg).2 = Accepted t ->
  let o := handleMessage P w t (state g) in
  let r := onMessage P MY_ID w g msg in
  processing r.1 = false
  /\ state r.1 = final o
  /\ (exists rest, r.2 = Handle t :: map Upstream (calls o) ++ rest)
  /\ (forall reply, signal o = Returned reply ->
        reply ∈ botSentTexts r.1 /\ Send (recipient msg) reply ∈ r.2)
  /\ (forall e, signal o = Thrown e ->
        errReply e ∈ botSentTexts r.1
        /\ r.2 = Handle t :: map Upstream (calls o)
                   ++ [Send (recipient msg) (errReply e)]).
Proof.
  intros Hacc o r. apply arrive_accepted_inv in Hacc as (_ & _ & Harr).
  unfold r, onMessage. rewrite Harr. unfold turn. cbn [state botSentTexts].
  fold o. pose proof (handleMessage_settles P w t (state g)) as Hsettled.
  fold o in Hsettled.
  destruct (signal o) as [reply|e|] eqn:Hsig; [|clear Hsettled|done].
  - destruct (sdk_send w (recipient msg) reply) as [e|]; cbn.
    + split_and!; try done.
      * eexists. rewrite <- app_assoc. done.
      * intros ? [= <-]. split.
        -- apply setAdd_keeps, setAdd_has.
        -- rewrite !elem_of_cons, !elem_of_app, !list_elem_of_singleton. tauto.
    + split_and!; try done.
      * by eexists.
      * intros ? [= <-]. split; [apply setAdd_has|].
        rewrite !elem_of_cons, !elem_of_app, !list_elem_of_singleton. tauto.
  - cbn. split_and!; try done.
    + by eexists.
    + intros ? [= <-]. split; [apply setAdd_has | done].
Qed.

Lemma accepted_reply_recorded w g msg t reply :
  (arrive MY_ID g msg).2 = Accepted t ->
  signal (handleMessage P w t (state g)) = Returned reply ->
  reply ∈ botSentTexts (onMessage P MY_ID w g msg).1.
Proof.
  intros Hacc Hret. apply arrive_accepted_inv in Hacc as (_ & _ & Harr).
  unfold onMessage. rewrite Harr. unfold turn. cbn [state botSentTexts].
  rewrite Hret. destruct (sdk_send _ _ _); cbn.
  - apply setAdd_keeps, setAdd_has.
  - apply setAdd_has.
Qed.

(** X25: the watcher does not answer itself. After an accepted turn whose
    handler returned a reply, an in-scope event with an unseen GUID whose
    trimmed text is that reply (the echo of the send) is classified as an
    echo of it: no handler runs, nothing is sent, the session stays as the
    turn left it, and the reply leaves [botSentTexts]. *)
Theorem own_reply_is_not_handled w w' g msg t reply echo :
  (arrive MY_ID g msg).2 = Accepted t ->
  signal (handleMessage P w t (state g)) = Returned reply ->
  let g1 := (onMessage P MY_ID w g msg).1 in
  inScope MY_ID echo = Some reply ->
  guid echo ∉ seenGuids g1 ->
  (arrive MY_ID g1 echo).2 = Echo reply
  /\ (onMessage P MY_ID w' g1 echo).2 = []
  /\ state (onMessage P MY_ID w' g1 echo).1 = state g1
  /\ reply ∉ botSentTexts (onMessage P MY_ID w' g1 echo).1.
Proof.
  intros Hacc Hret g1 Hscope Hfresh.
  pose proof (accepted_reply_recorded w g msg t reply Hacc Hret) as Hin.
  fold g1 in Hin.
  assert (arrive MY_ID g1 echo
          = ({| state := state g1; botSentTexts := setDelete reply (botSentTexts g1);
                seenGuids := {[guid echo]} ∪ seenGuids g1;
                processing := processing g1 |}, Echo reply)) as Harr.
  { unfold arrive. rewrite Hscope, bool_decide_eq_false_2 by done.
    by rewrite bool_decide_eq_true_2. }
  unfold onMessage. rewrite Harr. cbn. split_and!; try done.
  rewrite setDelete_spec. by intros [_ ?].
Qed.

End WatcherRuns.

Lemma accepted_turn_completes_witness :
  let msg := Sample.inbound "g1" "tacos" in
  let w := Sample.world 0 200 in
  let o := handleMessage Sample.plain w "tacos" (state startGateway) in
  let r := onMessage Sample.plain "" w startGateway msg in
  processing r.1 = false
  /\ state r.1 = final o
  /\ (exists rest, r.2 = Handle "tacos" :: map Upstream (calls o) ++ rest)
  /\ (forall reply, signal o = Returned reply ->
        reply ∈ botSentTexts r.1 /\ Send (recipient msg) reply ∈ r.2)
  /\ (forall e, signal o = Thrown e ->
        errReply e ∈ botSentTexts r.1
        /\ r.2 = Handle "tacos" :: map Upstream (calls o)
                   ++ [Send (recipient msg) (errReply e)]).
Proof.
  apply (accepted_turn_completes Sample.plain "" (Sample.world 0 200) startGateway
           (Sample.inbound "g1" "tacos") "tacos").
  vm_compute. reflexivity.
Defined.

Lemma own_reply_is_not_handled_witness :
  let w := Sample.world 0 200 in
  let g1 := (onMessage Sample.plain "" w startGateway (Sample.inbound "g1" "tacos")).1 in
  let echo := Sample.inbound "e1" Sample.echoed in
  (arrive "" g1 echo).2 = Echo Sample.echoed
  /\ (onMessage Sample.plain "" w g1 echo).2 = []
  /\ state (onMessage Sample.plain "" w g1 echo).1 = state g1
  /\ Sample.echoed ∉ botSentTexts (onMessage Sample.plain "" w g1 echo).1.
Proof.
  apply (own_reply_is_not_handled Sample.plain "" (Sample.world 0 200) (Sample.world 0 200)
           startGateway (Sample.inbound "g1" "tacos") "tacos" Sample.echoed
           (Sample.inbound "e1" Sample.echoed)).
  - vm_compute. reflexivity.
  - vm_compute. reflexivity.
  - vm_compute. reflexivity.
  - apply (bool_decide_unpack _). vm_compute. exact I.
Defined.
